(** * The retry loop of [weaveworks/common/backoff]

    A shallow embedding of [backoff.go]: the [backoff] struct, its
    constructor and setters, and the loop of [Start], together with the
    properties of the delay and of the logging policy.

    [Start] is a loop around two things the controller does not own: the
    work function [b.f], a Go closure that may answer differently at every
    call, and the [select] that ends each iteration, which wakes up either
    on the timer or on the closed [quit] channel.  Both are supplied here as
    a list of [turn]s, one per iteration: what [b.f] returned in that
    iteration and which case of the [select] ran.  What [Start] does is
    recorded as a list of [event]s. *)

From Stdlib Require Import ZArith String List Bool Lia.
Import ListNotations.
Open Scope string_scope.
Open Scope list_scope.
Open Scope Z_scope.

(** ** [time.Duration]

    A [time.Duration] is an [int64] count of nanoseconds; Go's arithmetic on
    it wraps around silently. *)

Module Int64.

Definition min_int : Z := - 2 ^ 63.
Definition max_int : Z := 2 ^ 63 - 1.

(** The representative of [z] modulo [2^64] in the signed range. *)
Definition wrap (z : Z) : Z := (z + 2 ^ 63) mod 2 ^ 64 - 2 ^ 63.

(** Go's [*] on [int64]. *)
Definition mul (x y : Z) : Z := wrap (x * y).

Definition in_range (z : Z) : Prop := min_int <= z <= max_int.

End Int64.

Definition Duration : Type := Z.

Definition Nanosecond : Duration := 1.
Definition Second : Duration := 1000000000 * Nanosecond.

(** ** The struct

    Go's [error] is an interface value that is [nil] or not; the loop only
    tests it against [nil] and hands it to the logger, so an error is its
    message and a possibly-[nil] error is an [option]. *)

Definition error : Type := string.

(** The fields [f], [quit] and [done] live in the environment (see [turn]
    and [event]); the record keeps the data the loop reads. *)
Record backoff : Type := mkBackoff
  { msg : string;
    initialBackoff : Duration;
    maxBackoff : Duration }.

Definition New (m : string) : backoff :=
  {| msg := m;
     initialBackoff := 10 * Second;
     maxBackoff := 60 * Second |}.

Definition SetInitialBackoff (b : backoff) (d : Duration) : backoff :=
  {| msg := msg b; initialBackoff := d; maxBackoff := maxBackoff b |}.

Definition SetMaxBackoff (b : backoff) (d : Duration) : backoff :=
  {| msg := msg b; initialBackoff := initialBackoff b; maxBackoff := d |}.

(** ** Environment and observations *)

(** Which case of the [select] at the end of an iteration ran. *)
Inductive wake : Type :=
| TimerFired   (* case <-time.After(backoff) *)
| QuitClosed.  (* case <-b.quit *)

(** One iteration's worth of environment: the pair [b.f()] returned, and
    the case the [select] took (not looked at when [f_done] is [true]). *)
Record turn : Type := mkTurn
  { f_done : bool;
    f_err : option error;
    sel : wake }.

Inductive event : Type :=
| Call (done : bool) (err : option error)   (* b.f() was called and returned *)
| Warnf (m : string) (d : Duration) (e : error)
                                            (* log.Warnf("Error %s, backing off %s: %s", ...) *)
| Infof (m : string)                        (* log.Infof("Success %s", b.msg) *)
| After (d : Duration) (w : wake)           (* the select on time.After(d) and b.quit *)
| CloseDone.                                (* the deferred close(b.done) *)

(** ** The loop of [Start] *)

(** The two local variables of [Start]: [backoff] and [shouldLog]. *)
Record locals : Type := mkLocals
  { l_backoff : Duration;
    l_shouldLog : bool }.

(** The locals on entry to the loop. *)
Definition entry (b : backoff) : locals :=
  {| l_backoff := initialBackoff b; l_shouldLog := true |}.

(** [if err != nil { backoff *= 2; ... } else { backoff = b.initialBackoff }] *)
Definition grow (b : backoff) (l : locals) (err : option error) : locals :=
  match err with
  | Some _ =>
      let doubled := Int64.mul (l_backoff l) 2 in
      if doubled >? maxBackoff b
      then {| l_backoff := maxBackoff b; l_shouldLog := false |}
      else {| l_backoff := doubled; l_shouldLog := true |}
  | None =>
      {| l_backoff := initialBackoff b; l_shouldLog := l_shouldLog l |}
  end.

(** [if shouldLog { if err != nil { log.Warnf(...) } else { log.Infof(...) } }] *)
Definition report (b : backoff) (l : locals) (err : option error) : list event :=
  if l_shouldLog l
  then match err with
       | Some e => [Warnf (msg b) (l_backoff l) e]
       | None => [Infof (msg b)]
       end
  else [].

(** [shouldLog = err != nil] *)
Definition rearm (l : locals) (err : option error) : locals :=
  {| l_backoff := l_backoff l;
     l_shouldLog := match err with Some _ => true | None => false end |}.

(** The locals at the [select] of an iteration in which [b.f] was not done. *)
Definition next (b : backoff) (l : locals) (err : option error) : locals :=
  rearm (grow b l err) err.

(** One pass through the body of the [for]: its events, and the locals of
    the following pass, or [None] when the body returned. *)
Definition step (b : backoff) (l : locals) (t : turn) : list event * option locals :=
  if f_done t
  then ([Call true (f_err t)], None)
  else
    let l1 := grow b l (f_err t) in
    let l2 := rearm l1 (f_err t) in
    (Call false (f_err t) :: report b l1 (f_err t) ++ [After (l_backoff l2) (sel t)],
     match sel t with
     | TimerFired => Some l2
     | QuitClosed => None
     end).

(** How a run over a finite list of turns ends: the loop returned, or the
    turns ran out with the loop still going, about to call [b.f] again. *)
Inductive ending : Type :=
| Exited
| Pending (l : locals).

Fixpoint loop (b : backoff) (l : locals) (ts : list turn) : list event * ending :=
  match ts with
  | [] => ([], Pending l)
  | t :: ts' =>
      match step b l t with
      | (evs, None) => (evs, Exited)
      | (evs, Some l') =>
          let (evs', e) := loop b l' ts' in (evs ++ evs', e)
      end
  end.

(** [Start]: the loop, and on return the deferred [close(b.done)]. *)
Definition Start (b : backoff) (ts : list turn) : list event * ending :=
  match loop b (entry b) ts with
  | (evs, Exited) => (evs ++ [CloseDone], Exited)
  | (evs, Pending l) => (evs, Pending l)
  end.

(** [Stop] closes [quit] and then receives from [done].  Nothing is ever
    sent on [done], so the receive completes exactly when [done] has been
    closed: after a [CloseDone] in what [Start] has done so far. *)
Definition is_CloseDone (e : event) : bool :=
  match e with CloseDone => true | _ => false end.

Definition Stop_unblocked (so_far : list event) : bool :=
  existsb is_CloseDone so_far.

(** ** Reading a trace *)

Definition is_note (e : event) : bool :=
  match e with Warnf _ _ _ | Infof _ => true | _ => false end.

(** The notifications of a trace, in order. *)
Definition notes (evs : list event) : list event := filter is_note evs.

(** The delays the loop waited for (or started to wait for), in order. *)
Fixpoint waits (evs : list event) : list Duration :=
  match evs with
  | [] => []
  | After d _ :: evs' => d :: waits evs'
  | _ :: evs' => waits evs'
  end.

(** The number of calls of [b.f]. *)
Fixpoint calls (evs : list event) : nat :=
  match evs with
  | [] => O
  | Call _ _ :: evs' => S (calls evs')
  | _ :: evs' => calls evs'
  end.

(** Every delay a trace shows: those waited for and those logged. *)
Fixpoint delays (evs : list event) : list Duration :=
  match evs with
  | [] => []
  | After d _ :: evs' => d :: delays evs'
  | Warnf _ d _ :: evs' => d :: delays evs'
  | _ :: evs' => delays evs'
  end.

(** A turn after which the loop goes round again. *)
Definition continues (t : turn) : bool :=
  negb (f_done t) && match sel t with TimerFired => true | QuitClosed => false end.

(** A turn in which [b.f] returned [(false, err)] with [err != nil]. *)
Definition fails (t : turn) : bool :=
  negb (f_done t) && match f_err t with Some _ => true | None => false end.

(** The locals after a run of turns that all go round again. *)
Definition locals_after (b : backoff) (l : locals) (ts : list turn) : locals :=
  fold_left (fun l t => next b l (f_err t)) ts l.

(** The configurations on which doubling never leaves [int64] and never
    moves a delay below [initialBackoff]: no negative delays, and either
    nothing to double or a maximum whose double still fits. *)
Definition doubling_safe (b : backoff) : Prop :=
  0 <= initialBackoff b <= maxBackoff b /\
  (initialBackoff b = 0 \/ 2 * maxBackoff b <= Int64.max_int).

(** The delay is between [initialBackoff] and [maxBackoff], and is [0]
    when there is nothing to double. *)
Definition in_bounds (b : backoff) (l : locals) : Prop :=
  initialBackoff b <= l_backoff l <= maxBackoff b /\
  (initialBackoff b = 0 -> l_backoff l = 0).

(** The three kinds of answer of [b.f], as turns. *)
Definition failing (e : error) (w : wake) : turn :=
  {| f_done := false; f_err := Some e; sel := w |}.

Definition idle (w : wake) : turn :=
  {| f_done := false; f_err := None; sel := w |}.

Definition finished (err : option error) : turn :=
  {| f_done := true; f_err := err; sel := TimerFired |}.

(** ** The end of an iteration, and the shape of a trace *)

(** What follows the [select] in the trace when the run stops there: the
    deferred [close(b.done)] if the [<-b.quit] case ran. *)
Definition closing (w : wake) : list event :=
  match w with
  | TimerFired => []
  | QuitClosed => [CloseDone]
  end.

(** How a run stands after the [select] of its last turn. *)
Definition carries_on (w : wake) (l : locals) : ending :=
  match w with
  | TimerFired => Pending l
  | QuitClosed => Exited
  end.

(** The turns whose iteration gets as far as the [select]: those before
    the first call that reports completion, up to and including the first
    one whose [select] takes [<-b.quit]. *)
Fixpoint served (ts : list turn) : list turn :=
  match ts with
  | [] => []
  | t :: ts' =>
      if f_done t then []
      else t :: match sel t with
                | TimerFired => served ts'
                | QuitClosed => []
                end
  end.

Definition is_Warnf (e : event) : bool :=
  match e with Warnf _ _ _ => true | _ => false end.

Definition ends_here (evs : list event) : bool :=
  match evs with [CloseDone] => true | _ => false end.

(** The traces made of whole iterations: a call that reports completion
    and then [close(b.done)]; or a call, at most one notification (a
    warning with [m], the error of that call and the delay of the wait
    that follows, or the info message with [m] when the call gave no
    error), and the wait, after which [close(b.done)] ends the trace if
    the wait was cut short by [quit], and iterations follow if not. *)
Fixpoint well_formed (m : string) (evs : list event) : bool :=
  match evs with
  | [] => true
  | Call true _ :: rest => ends_here rest
  | Call false _ :: After d w :: rest =>
      match w with
      | TimerFired => well_formed m rest
      | QuitClosed => ends_here rest
      end
  | Call false (Some e) :: Warnf m' d' e' :: After d w :: rest =>
      String.eqb m' m && String.eqb e' e && Z.eqb d' d &&
      match w with
      | TimerFired => well_formed m rest
      | QuitClosed => ends_here rest
      end
  | Call false None :: Infof m' :: After d w :: rest =>
      String.eqb m' m &&
      match w with
      | TimerFired => well_formed m rest
      | QuitClosed => ends_here rest
      end
  | _ => false
  end.

(** ** Arithmetic of [int64] doubling *)

Lemma wrap_fits (z : Z) : Int64.in_range z -> Int64.wrap z = z.
Proof.
  unfold Int64.in_range, Int64.wrap, Int64.min_int, Int64.max_int.
  intros Hz. rewrite Z.mod_small; lia.
Qed.

Lemma mul_2_fits (x : Z) : Int64.in_range (2 * x) -> Int64.mul x 2 = 2 * x.
Proof.
  intros Hx. unfold Int64.mul. rewrite (Z.mul_comm x 2). now apply wrap_fits.
Qed.

Lemma wrap_in_range (z : Z) : Int64.in_range (Int64.wrap z).
Proof.
  unfold Int64.in_range, Int64.wrap, Int64.min_int, Int64.max_int.
  pose proof (Z.mod_pos_bound (z + 2 ^ 63) (2 ^ 64) ltac:(lia)). lia.
Qed.

(** ** The loop over a run of turns that all go round again *)

Lemma step_done (b : backoff) (l : locals) (t : turn) :
  f_done t = true -> step b l t = ([Call true (f_err t)], None).
Proof. intros Hd. unfold step. now rewrite Hd. Qed.

Lemma step_continues (b : backoff) (l : locals) (t : turn) :
  continues t = true ->
  step b l t =
    (Call false (f_err t) :: report b (grow b l (f_err t)) (f_err t)
       ++ [After (l_backoff (next b l (f_err t))) TimerFired],
     Some (next b l (f_err t))).
Proof.
  unfold continues, step. destruct (f_done t); [discriminate|].
  destruct (sel t); [reflexivity|discriminate].
Qed.

Lemma step_quit (b : backoff) (l : locals) (t : turn) :
  f_done t = false -> sel t = QuitClosed ->
  step b l t =
    (Call false (f_err t) :: report b (grow b l (f_err t)) (f_err t)
       ++ [After (l_backoff (next b l (f_err t))) QuitClosed],
     None).
Proof. intros Hd Hs. unfold step. now rewrite Hd, Hs. Qed.

Lemma loop_continues (b : backoff) (pre rest : list turn) :
  forallb continues pre = true ->
  forall l,
    loop b l (pre ++ rest) =
      (fst (loop b l pre) ++ fst (loop b (locals_after b l pre) rest),
       snd (loop b (locals_after b l pre) rest)).
Proof.
  induction pre as [|t pre IH]; intros Hpre l.
  - cbn. now destruct (loop b l rest).
  - cbn in Hpre. apply andb_true_iff in Hpre as [Ht Hpre].
    cbn [app loop locals_after fold_left].
    rewrite (step_continues b l t Ht).
    fold (locals_after b (next b l (f_err t)) pre).
    rewrite (IH Hpre).
    destruct (loop b (next b l (f_err t)) pre) as [e1 en1].
    cbn [fst snd]. now rewrite <- app_assoc.
Qed.

Lemma loop_pending (b : backoff) (pre : list turn) :
  forallb continues pre = true ->
  forall l, snd (loop b l pre) = Pending (locals_after b l pre).
Proof.
  intros Hpre l. pose proof (loop_continues b pre [] Hpre l) as H.
  rewrite app_nil_r in H. cbn in H. now rewrite H.
Qed.

Lemma locals_after_snoc (b : backoff) (l : locals) (pre : list turn) (t : turn) :
  locals_after b l (pre ++ [t]) = next b (locals_after b l pre) (f_err t).
Proof. unfold locals_after. now rewrite fold_left_app. Qed.

Lemma notes_app (e1 e2 : list event) : notes (e1 ++ e2) = notes e1 ++ notes e2.
Proof. apply filter_app. Qed.

Lemma waits_app (e1 e2 : list event) : waits (e1 ++ e2) = waits e1 ++ waits e2.
Proof.
  induction e1 as [|e e1 IH]; [reflexivity|].
  destruct e; cbn; now rewrite ?IH.
Qed.

Lemma calls_app (e1 e2 : list event) : (calls (e1 ++ e2) = calls e1 + calls e2)%nat.
Proof.
  induction e1 as [|e e1 IH]; [reflexivity|].
  destruct e; cbn; now rewrite ?IH.
Qed.

Lemma delays_app (e1 e2 : list event) : delays (e1 ++ e2) = delays e1 ++ delays e2.
Proof.
  induction e1 as [|e e1 IH]; [reflexivity|].
  destruct e; cbn; now rewrite ?IH.
Qed.

Lemma notes_report (b : backoff) (l : locals) (err : option error) :
  notes (report b l err) = report b l err.
Proof. unfold report. destruct (l_shouldLog l), err; reflexivity. Qed.

Lemma waits_report (b : backoff) (l : locals) (err : option error) :
  waits (report b l err) = [].
Proof. unfold report. destruct (l_shouldLog l), err; reflexivity. Qed.

Lemma calls_report (b : backoff) (l : locals) (err : option error) :
  calls (report b l err) = O.
Proof. unfold report. destruct (l_shouldLog l), err; reflexivity. Qed.

Lemma CloseDone_report (b : backoff) (l : locals) (err : option error) :
  existsb is_CloseDone (report b l err) = false.
Proof. unfold report. destruct (l_shouldLog l), err; reflexivity. Qed.

(** A run of turns that all go round again: one call and one wait each,
    and [done] stays open. *)
Lemma loop_round_counts (b : backoff) (pre : list turn) :
  forallb continues pre = true ->
  forall l,
    calls (fst (loop b l pre)) = length pre /\
    length (waits (fst (loop b l pre))) = length pre /\
    existsb is_CloseDone (fst (loop b l pre)) = false.
Proof.
  induction pre as [|t pre IH]; intros Hpre l; [now cbn|].
  cbn in Hpre. apply andb_true_iff in Hpre as [Ht Hpre].
  cbn [loop]. rewrite (step_continues b l t Ht).
  destruct (IH Hpre (next b l (f_err t))) as (Hc & Hw & Hd).
  destruct (loop b (next b l (f_err t)) pre) as [e1 en1].
  cbn [fst] in *.
  rewrite <- !app_comm_cons, <- !app_assoc.
  cbn [calls waits existsb is_CloseDone orb length].
  rewrite calls_app, waits_app, existsb_app, calls_report, waits_report,
    CloseDone_report.
  cbn. rewrite Hc, Hw, Hd. auto.
Qed.

(** The events of a run whose first turn did not finish the work. *)
Lemma loop_cons_not_done (b : backoff) (l : locals) (t : turn) (rest : list turn) :
  f_done t = false ->
  fst (loop b l (t :: rest)) =
    Call false (f_err t) :: report b (grow b l (f_err t)) (f_err t)
      ++ After (l_backoff (next b l (f_err t))) (sel t)
      :: match sel t with
         | TimerFired => fst (loop b (next b l (f_err t)) rest)
         | QuitClosed => []
         end.
Proof.
  intros Hd. cbn [loop]. unfold step. rewrite Hd. fold (next b l (f_err t)).
  destruct (sel t).
  - destruct (loop b (next b l (f_err t)) rest) as [e1 en1]. cbn [fst].
    now rewrite <- app_comm_cons, <- app_assoc.
  - reflexivity.
Qed.

Lemma fst_Start (b : backoff) (ts : list turn) :
  fst (Start b ts) =
    fst (loop b (entry b) ts)
      ++ match snd (loop b (entry b) ts) with
         | Exited => [CloseDone]
         | Pending _ => []
         end.
Proof.
  unfold Start. destruct (loop b (entry b) ts) as [evs [|l]]; cbn [fst snd].
  - reflexivity.
  - now rewrite app_nil_r.
Qed.

Lemma waits_Start (b : backoff) (ts : list turn) :
  waits (fst (Start b ts)) = waits (fst (loop b (entry b) ts)).
Proof.
  rewrite fst_Start, waits_app.
  destruct (snd (loop b (entry b) ts)); cbn; now rewrite app_nil_r.
Qed.

Lemma notes_Start (b : backoff) (ts : list turn) :
  notes (fst (Start b ts)) = notes (fst (loop b (entry b) ts)).
Proof.
  rewrite fst_Start, notes_app.
  destruct (snd (loop b (entry b) ts)); cbn; now rewrite app_nil_r.
Qed.

Lemma delays_Start (b : backoff) (ts : list turn) :
  delays (fst (Start b ts)) = delays (fst (loop b (entry b) ts)).
Proof.
  rewrite fst_Start, delays_app.
  destruct (snd (loop b (entry b) ts)); cbn; now rewrite app_nil_r.
Qed.

(** ** Growth of the delay under failures *)

Lemma fails_inv (t : turn) :
  fails t = true -> f_done t = false /\ exists e, f_err t = Some e.
Proof.
  unfold fails. destruct (f_done t); [discriminate|].
  destruct (f_err t) as [e|]; [eauto|discriminate].
Qed.

Lemma next_backoff (b : backoff) (l : locals) (err : option error) :
  l_backoff (next b l err) = l_backoff (grow b l err).
Proof. reflexivity. Qed.

(** One failure takes [min x max] to [min (2 x) max] on a safe
    configuration, where [x] stands for [initialBackoff * 2^n]. *)
Lemma grow_fail_min (b : backoff) (l : locals) (e : error) (x : Z) :
  doubling_safe b ->
  0 <= x -> (initialBackoff b = 0 -> x = 0) -> initialBackoff b <= x ->
  l_backoff l = Z.min x (maxBackoff b) ->
  l_backoff (grow b l (Some e)) = Z.min (2 * x) (maxBackoff b).
Proof.
  intros [Hle Hsafe] Hx Hx0 Hix Hl. cbn [grow].
  assert (Hfit : Int64.in_range (2 * l_backoff l)).
  { unfold Int64.in_range, Int64.min_int, Int64.max_int in *.
    destruct Hsafe as [H0|Hm]; lia. }
  rewrite (mul_2_fits _ Hfit).
  destruct (Z.gtb_spec (2 * l_backoff l) (maxBackoff b)); cbn [l_backoff]; lia.
Qed.

Lemma locals_after_failures (b : backoff) (pre : list turn) :
  doubling_safe b ->
  forallb fails pre = true ->
  forall (l : locals) (k : nat),
    l_backoff l = Z.min (initialBackoff b * 2 ^ Z.of_nat k) (maxBackoff b) ->
    l_backoff (locals_after b l pre) =
      Z.min (initialBackoff b * 2 ^ Z.of_nat (k + length pre)) (maxBackoff b).
Proof.
  intros Hsafe. induction pre as [|t pre IH]; intros Hpre l k Hl.
  - cbn. now rewrite Nat.add_0_r.
  - cbn in Hpre. apply andb_true_iff in Hpre as [Ht Hpre].
    destruct (fails_inv t Ht) as [_ [e He]].
    cbn [locals_after fold_left length].
    fold (locals_after b (next b l (f_err t)) pre).
    replace (k + S (length pre))%nat with (S k + length pre)%nat by lia.
    apply IH; [assumption|].
    rewrite next_backoff, He.
    replace (initialBackoff b * 2 ^ Z.of_nat (S k))
      with (2 * (initialBackoff b * 2 ^ Z.of_nat k))
      by (rewrite Nat2Z.inj_succ, Z.pow_succ_r; lia).
    pose proof (Z.pow_pos_nonneg 2 (Z.of_nat k) ltac:(lia) ltac:(lia)) as Hpow.
    destruct Hsafe as [Hle Hs].
    apply grow_fail_min; [split; assumption|nia| |nia|assumption].
    intros H0. rewrite H0. lia.
Qed.

(** C1, as amended: on a configuration with
    [0 <= initialBackoff <= maxBackoff] where doubling cannot overflow
    ([initialBackoff = 0], or [2 * maxBackoff] fits in an [int64]), if
    [b.f] returns [(false, err)] with [err != nil] in each of the first [N]
    iterations, then the delay of the wait that ends the [N]-th iteration is
    [min (initialBackoff * 2^N) maxBackoff].  Here [N = S (length pre)]:
    [pre] are the first [N-1] iterations, [t] is the [N]-th, and what comes
    after is arbitrary. *)
Theorem delay_after_failures (b : backoff) (pre : list turn) (t : turn) (rest : list turn) :
  doubling_safe b ->
  forallb fails pre = true ->
  forallb continues pre = true ->
  fails t = true ->
  nth_error (waits (fst (Start b (pre ++ t :: rest)))) (length pre) =
    Some (Z.min (initialBackoff b * 2 ^ Z.of_nat (S (length pre))) (maxBackoff b)).
Proof.
  intros Hsafe Hfail Hcont Ht.
  destruct (fails_inv t Ht) as [Hd _].
  rewrite waits_Start, (loop_continues b pre (t :: rest) Hcont). cbn [fst].
  rewrite waits_app.
  destruct (loop_round_counts b pre Hcont (entry b)) as (_ & Hlen & _).
  rewrite nth_error_app2 by lia. rewrite Hlen, Nat.sub_diag.
  rewrite (loop_cons_not_done b _ t rest Hd).
  cbn [waits]. rewrite waits_app, waits_report. cbn [app waits nth_error].
  f_equal. rewrite <- locals_after_snoc.
  assert (Hall : forallb fails (pre ++ [t]) = true).
  { rewrite forallb_app, Hfail. cbn. now rewrite Ht. }
  rewrite (locals_after_failures b (pre ++ [t]) Hsafe Hall (entry b) 0%nat).
  - rewrite length_app. cbn [length]. do 3 f_equal. lia.
  - cbn. destruct Hsafe as [Hle _]. lia.
Qed.

Lemma delay_after_failures_witness :
  nth_error
    (waits (fst (Start (New "sync")
                   ([failing "timeout" TimerFired; failing "timeout" TimerFired]
                      ++ failing "timeout" TimerFired :: []))))
    2
  = Some (60 * Second).
Proof.
  apply (delay_after_failures (New "sync")
           [failing "timeout" TimerFired; failing "timeout" TimerFired]
           (failing "timeout" TimerFired) []).
  - unfold doubling_safe. vm_compute. repeat split; try discriminate.
    right. discriminate.
  - reflexivity.
  - reflexivity.
  - reflexivity.
Defined.

(** C1 as stated fails where the doubling leaves [int64]: with
    [initialBackoff = 2^62] and [maxBackoff] the largest duration, one
    failure makes the delay [-2^63], which is not above the maximum and so
    is kept, while [min (initialBackoff * 2^1) maxBackoff] is the maximum. *)
Lemma delay_after_failure_overflows :
  let b := {| msg := "sync"; initialBackoff := 2 ^ 62; maxBackoff := Int64.max_int |} in
  initialBackoff b <= maxBackoff b /\
  nth_error (waits (fst (Start b [failing "timeout" TimerFired]))) 0
    = Some Int64.min_int /\
  Z.min (initialBackoff b * 2 ^ 1) (maxBackoff b) = Int64.max_int /\
  nth_error (waits (fst (Start b [failing "timeout" TimerFired]))) 0
    <> Some (Z.min (initialBackoff b * 2 ^ 1) (maxBackoff b)).
Proof.
  vm_compute. repeat split; discriminate.
Qed.

(** ** The range of the delay *)

Lemma entry_in_bounds (b : backoff) : doubling_safe b -> in_bounds b (entry b).
Proof. intros [Hle _]. unfold in_bounds. cbn. split; [lia|auto]. Qed.

Lemma next_in_bounds (b : backoff) (l : locals) (err : option error) :
  doubling_safe b -> in_bounds b l -> in_bounds b (next b l err).
Proof.
  intros [Hle Hsafe] [Hl H0]. unfold in_bounds. rewrite next_backoff.
  destruct err as [e|]; cbn [grow l_backoff]; [|split; [lia|auto]].
  assert (Hfit : Int64.in_range (2 * l_backoff l)).
  { unfold Int64.in_range, Int64.min_int, Int64.max_int in *.
    destruct Hsafe as [Hi|Hm]; [rewrite (H0 Hi)|]; lia. }
  rewrite (mul_2_fits _ Hfit).
  destruct (Z.gtb_spec (2 * l_backoff l) (maxBackoff b)); cbn [l_backoff];
    split; try lia; intros Hi; specialize (H0 Hi); lia.
Qed.

Lemma snd_loop_cons (b : backoff) (l : locals) (t : turn) (rest : list turn) :
  snd (loop b l (t :: rest)) =
    if f_done t then Exited
    else match sel t with
         | TimerFired => snd (loop b (next b l (f_err t)) rest)
         | QuitClosed => Exited
         end.
Proof.
  cbn [loop]. unfold step. destruct (f_done t); [reflexivity|].
  fold (next b l (f_err t)). destruct (sel t); [|reflexivity].
  now destruct (loop b (next b l (f_err t)) rest).
Qed.

Lemma delays_report (b : backoff) (l : locals) (err : option error) (P : Duration -> Prop) :
  P (l_backoff l) -> Forall P (delays (report b l err)).
Proof.
  intros HP. unfold report.
  destruct (l_shouldLog l), err; cbn; auto.
Qed.

Lemma loop_in_bounds (b : backoff) (ts : list turn) :
  doubling_safe b ->
  forall l, in_bounds b l ->
    Forall (fun d => initialBackoff b <= d <= maxBackoff b) (delays (fst (loop b l ts))) /\
    (forall l', snd (loop b l ts) = Pending l' -> in_bounds b l').
Proof.
  intros Hsafe. induction ts as [|t ts IH]; intros l Hl.
  - cbn. split; [constructor|]. intros l' [= <-]. assumption.
  - pose proof (next_in_bounds b l (f_err t) Hsafe Hl) as Hn.
    destruct (IH _ Hn) as [IHd IHp].
    rewrite snd_loop_cons. destruct (f_done t) eqn:Hd.
    + cbn [loop]. rewrite (step_done b l t Hd). cbn. split; [constructor|discriminate].
    + rewrite (loop_cons_not_done b l t ts Hd). cbn [delays].
      rewrite delays_app. cbn [delays]. split.
      * apply Forall_app. split.
        { apply delays_report. rewrite <- next_backoff. apply Hn. }
        constructor; [apply Hn|].
        destruct (sel t); [assumption|constructor].
      * destruct (sel t); [assumption|discriminate].
Qed.

(** C6, as amended: on a configuration with
    [0 <= initialBackoff <= maxBackoff] where doubling cannot overflow
    ([initialBackoff = 0], or [2 * maxBackoff] fits in an [int64]), the
    delay is in [[initialBackoff, maxBackoff]] throughout a run, whatever
    [b.f] answers: the loop is entered with [initialBackoff], every delay
    that is logged or waited for is in the range, and so is the delay the
    loop holds when it is about to call [b.f] again. *)
Theorem backoff_within_bounds (b : backoff) (ts : list turn) :
  doubling_safe b ->
  l_backoff (entry b) = initialBackoff b /\
  Forall (fun d => initialBackoff b <= d <= maxBackoff b) (delays (fst (Start b ts))) /\
  (forall l, snd (Start b ts) = Pending l ->
             initialBackoff b <= l_backoff l <= maxBackoff b).
Proof.
  intros Hsafe. split; [reflexivity|].
  destruct (loop_in_bounds b ts Hsafe (entry b) (entry_in_bounds b Hsafe)) as [Hd Hp].
  rewrite delays_Start. split; [assumption|].
  intros l Hl. apply (Hp l).
  unfold Start in Hl. destruct (loop b (entry b) ts) as [evs [|l0]]; cbn in *;
    [discriminate|assumption].
Qed.

Lemma backoff_within_bounds_witness :
  let b := New "sync" in
  let ts := [failing "timeout" TimerFired; failing "timeout" TimerFired;
             failing "timeout" TimerFired; idle TimerFired;
             failing "timeout" QuitClosed] in
  l_backoff (entry b) = initialBackoff b /\
  Forall (fun d => initialBackoff b <= d <= maxBackoff b) (delays (fst (Start b ts))) /\
  (forall l, snd (Start b ts) = Pending l ->
             initialBackoff b <= l_backoff l <= maxBackoff b).
Proof.
  apply (backoff_within_bounds (New "sync")).
  unfold doubling_safe. vm_compute. repeat split; try discriminate.
  right. discriminate.
Defined.

(** C6 as stated fails for a negative [initialBackoff], which
    [initialBackoff <= maxBackoff] allows: from [-1] one failure doubles the
    delay to [-2], below [initialBackoff]. *)
Lemma backoff_leaves_bounds_when_negative :
  let b := {| msg := "sync"; initialBackoff := -1; maxBackoff := 4 |} in
  initialBackoff b <= maxBackoff b /\
  Start b [failing "timeout" TimerFired]
    = ([Call false (Some "timeout"); Warnf "sync" (-2) "timeout"; After (-2) TimerFired],
       Pending {| l_backoff := -2; l_shouldLog := true |}) /\
  ~ Forall (fun d => initialBackoff b <= d <= maxBackoff b)
      (delays (fst (Start b [failing "timeout" TimerFired]))).
Proof.
  cbv zeta. split; [cbn; lia|]. split; [reflexivity|].
  intros H. cbn in H. inversion H as [|d ds [Hlo _] _]. cbn in Hlo. lia.
Qed.

(** ** One iteration, seen from [Start] *)

(** After [pre], a run of turns that all go round again, the next pass
    through the body is [step] at the locals [pre] leaves behind, and its
    events follow those of [pre] in the trace of [Start]. *)
Lemma Start_unfolds_at (b : backoff) (pre : list turn) (t : turn) (rest : list turn) :
  forallb continues pre = true ->
  exists later,
    fst (Start b (pre ++ t :: rest)) =
      fst (Start b pre) ++ fst (step b (locals_after b (entry b) pre) t) ++ later.
Proof.
  intros Hpre. rewrite !fst_Start.
  rewrite (loop_pending b pre Hpre), app_nil_r.
  rewrite (loop_continues b pre (t :: rest) Hpre). cbn [fst snd].
  set (l := locals_after b (entry b) pre).
  cbn [loop]. destruct (step b l t) as [evs [l'|]]; cbn [fst snd].
  - destruct (loop b l' rest) as [evs' en]. cbn [fst snd].
    exists (evs' ++ match en with Exited => [CloseDone] | Pending _ => [] end).
    now rewrite <- !app_assoc.
  - exists [CloseDone]. now rewrite <- !app_assoc.
Qed.

Lemma step_not_done (b : backoff) (l : locals) (t : turn) :
  f_done t = false ->
  fst (step b l t) =
    Call false (f_err t) :: report b (grow b l (f_err t)) (f_err t)
      ++ [After (l_backoff (grow b l (f_err t))) (sel t)].
Proof. intros Hd. unfold step. now rewrite Hd. Qed.

(** The iteration that follows a run [pre] of turns that all go round
    again, as it stands in the trace of [Start]. *)
Lemma Start_iteration (b : backoff) (pre : list turn) (t : turn) (rest : list turn) :
  forallb continues pre = true ->
  f_done t = false ->
  exists later,
    fst (Start b (pre ++ t :: rest)) =
      fst (Start b pre)
        ++ Call false (f_err t)
        :: report b (grow b (locals_after b (entry b) pre) (f_err t)) (f_err t)
        ++ After (l_backoff (grow b (locals_after b (entry b) pre) (f_err t))) (sel t)
        :: later.
Proof.
  intros Hpre Hd. destruct (Start_unfolds_at b pre t rest Hpre) as [later H].
  exists later. rewrite H, (step_not_done b _ t Hd).
  rewrite <- app_comm_cons, <- app_assoc. reflexivity.
Qed.

(** The same when the iteration is the last one the environment offers:
    the whole of what [Start] has done, and how it stands. *)
Lemma Start_snoc (b : backoff) (pre : list turn) (t : turn) :
  forallb continues pre = true ->
  f_done t = false ->
  Start b (pre ++ [t]) =
    (fst (Start b pre)
       ++ Call false (f_err t)
       :: report b (grow b (locals_after b (entry b) pre) (f_err t)) (f_err t)
       ++ After (l_backoff (grow b (locals_after b (entry b) pre) (f_err t))) (sel t)
       :: closing (sel t),
     carries_on (sel t) (next b (locals_after b (entry b) pre) (f_err t))).
Proof.
  intros Hpre Hd. rewrite fst_Start, (loop_pending b pre Hpre), app_nil_r.
  unfold Start. rewrite (loop_continues b pre [t] Hpre).
  set (l := locals_after b (entry b) pre).
  cbn [loop]. unfold step. rewrite Hd. fold (next b l (f_err t)).
  destruct (sel t); cbn [fst snd closing carries_on].
  - now rewrite !app_nil_r.
  - rewrite <- !app_assoc. cbn [app]. now rewrite <- app_assoc.
Qed.

Lemma notes_step (b : backoff) (l : locals) (t : turn) :
  f_done t = false ->
  notes (fst (step b l t)) = report b (grow b l (f_err t)) (f_err t).
Proof.
  intros Hd. rewrite (step_not_done b l t Hd).
  change (notes (Call false (f_err t) :: ?x)) with (notes x).
  rewrite notes_app, notes_report. cbn. now rewrite app_nil_r.
Qed.

Lemma waits_step (b : backoff) (l : locals) (t : turn) :
  f_done t = false ->
  waits (fst (step b l t)) = [l_backoff (grow b l (f_err t))].
Proof.
  intros Hd. rewrite (step_not_done b l t Hd).
  cbn [waits]. now rewrite waits_app, waits_report.
Qed.

(** ** The two branches of the update *)

(** What a failing call does to the delay, the log and the wait of its own
    pass through the body. *)
Lemma failure_in_one_pass (b : backoff) (l : locals) (t : turn) (e : error) :
  f_done t = false ->
  f_err t = Some e ->
  (Int64.in_range (2 * l_backoff l) -> Int64.mul (l_backoff l) 2 = 2 * l_backoff l) /\
  (Int64.mul (l_backoff l) 2 > maxBackoff b ->
     grow b l (f_err t) = {| l_backoff := maxBackoff b; l_shouldLog := false |} /\
     notes (fst (step b l t)) = [] /\
     waits (fst (step b l t)) = [maxBackoff b]) /\
  (Int64.mul (l_backoff l) 2 <= maxBackoff b ->
     grow b l (f_err t) =
       {| l_backoff := Int64.mul (l_backoff l) 2; l_shouldLog := true |} /\
     notes (fst (step b l t)) = [Warnf (msg b) (Int64.mul (l_backoff l) 2) e] /\
     waits (fst (step b l t)) = [Int64.mul (l_backoff l) 2]) /\
  (Int64.mul (l_backoff l) 2 = maxBackoff b ->
     notes (fst (step b l t)) = [Warnf (msg b) (maxBackoff b) e]).
Proof.
  intros Hd He. rewrite (notes_step b l t Hd), (waits_step b l t Hd), He.
  split; [apply mul_2_fits|]. cbn [grow].
  destruct (Z.gtb_spec (Int64.mul (l_backoff l) 2) (maxBackoff b)) as [Hgt|Hle].
  - split; [|split]; intros H; try lia. repeat split.
  - split; [|split]; intros H; try lia; [repeat split|].
    unfold report. cbn. now rewrite H.
Qed.

(** C4: in an iteration where [b.f] returns [(false, err)] with
    [err != nil], the delay is doubled ([backoff *= 2] on [int64], which is
    [2 * backoff] whenever that fits).  If the doubled delay exceeds
    [maxBackoff], the delay becomes [maxBackoff], [shouldLog] is set to
    [false] and the iteration logs nothing; otherwise the delay is the
    doubled one, [shouldLog] is set to [true] and the iteration logs one
    warning with [msg], the new delay and the error.  When the doubled delay
    is exactly [maxBackoff] the warning is still logged.  In both cases
    the wait is for the new delay, and the new delay is the one the loop
    carries into the next iteration (with [shouldLog] set again).  The last
    part of each case places the iteration in a run of [Start]: after any
    turns [pre] that leave the locals [l], the trace of [Start] goes on with
    exactly these events, and [Start] is left with exactly these locals. *)
Theorem failure_doubles_then_clamps (b : backoff) (l : locals) (t : turn) (e : error) :
  f_done t = false ->
  f_err t = Some e ->
  (Int64.in_range (2 * l_backoff l) -> Int64.mul (l_backoff l) 2 = 2 * l_backoff l) /\
  (Int64.mul (l_backoff l) 2 > maxBackoff b ->
     grow b l (f_err t) = {| l_backoff := maxBackoff b; l_shouldLog := false |} /\
     notes (fst (step b l t)) = [] /\
     waits (fst (step b l t)) = [maxBackoff b] /\
     step b l t =
       ([Call false (Some e); After (maxBackoff b) (sel t)],
        match sel t with
        | TimerFired => Some {| l_backoff := maxBackoff b; l_shouldLog := true |}
        | QuitClosed => None
        end) /\
     (forall pre,
        forallb continues pre = true ->
        locals_after b (entry b) pre = l ->
        Start b (pre ++ [t]) =
          (fst (Start b pre)
             ++ [Call false (Some e); After (maxBackoff b) (sel t)] ++ closing (sel t),
           carries_on (sel t) {| l_backoff := maxBackoff b; l_shouldLog := true |}))) /\
  (Int64.mul (l_backoff l) 2 <= maxBackoff b ->
     grow b l (f_err t) =
       {| l_backoff := Int64.mul (l_backoff l) 2; l_shouldLog := true |} /\
     notes (fst (step b l t)) = [Warnf (msg b) (Int64.mul (l_backoff l) 2) e] /\
     waits (fst (step b l t)) = [Int64.mul (l_backoff l) 2] /\
     step b l t =
       ([Call false (Some e); Warnf (msg b) (Int64.mul (l_backoff l) 2) e;
         After (Int64.mul (l_backoff l) 2) (sel t)],
        match sel t with
        | TimerFired =>
            Some {| l_backoff := Int64.mul (l_backoff l) 2; l_shouldLog := true |}
        | QuitClosed => None
        end) /\
     (forall pre,
        forallb continues pre = true ->
        locals_after b (entry b) pre = l ->
        Start b (pre ++ [t]) =
          (fst (Start b pre)
             ++ [Call false (Some e); Warnf (msg b) (Int64.mul (l_backoff l) 2) e;
                 After (Int64.mul (l_backoff l) 2) (sel t)] ++ closing (sel t),
           carries_on (sel t)
             {| l_backoff := Int64.mul (l_backoff l) 2; l_shouldLog := true |}))) /\
  (Int64.mul (l_backoff l) 2 = maxBackoff b ->
     notes (fst (step b l t)) = [Warnf (msg b) (maxBackoff b) e]).
Proof.
  intros Hd He.
  destruct (failure_in_one_pass b l t e Hd He) as (H2x & Hgt & Hle & Heq).
  split; [exact H2x|]. split; [|split; [|exact Heq]].
  - intros H. destruct (Hgt H) as (Hg & Hn & Hw).
    do 3 (split; [assumption|]). split.
    + unfold step. rewrite Hd, Hg, He. reflexivity.
    + intros pre Hpre Hl. rewrite (Start_snoc b pre t Hpre Hd), Hl.
      unfold next. rewrite Hg, He. reflexivity.
  - intros H. destruct (Hle H) as (Hg & Hn & Hw).
    do 3 (split; [assumption|]). split.
    + unfold step. rewrite Hd, Hg, He. reflexivity.
    + intros pre Hpre Hl. rewrite (Start_snoc b pre t Hpre Hd), Hl.
      unfold next. rewrite Hg, He. reflexivity.
Qed.

Lemma failure_doubles_then_clamps_witness :
  let b := New "sync" in
  let l := {| l_backoff := 30 * Second; l_shouldLog := false |} in
  let t := failing "timeout" TimerFired in
  (Int64.mul (l_backoff l) 2 = maxBackoff b /\
   notes (fst (step b l t)) = [Warnf "sync" (60 * Second) "timeout"]) /\
  Start b ([t] ++ [t]) =
    (fst (Start b [t])
       ++ [Call false (Some "timeout"); Warnf "sync" (40 * Second) "timeout";
           After (40 * Second) TimerFired] ++ closing TimerFired,
     carries_on TimerFired {| l_backoff := 40 * Second; l_shouldLog := true |}) /\
  Start b ([t; t] ++ [t]) =
    (fst (Start b [t; t])
       ++ [Call false (Some "timeout"); After (60 * Second) TimerFired]
       ++ closing TimerFired,
     carries_on TimerFired {| l_backoff := 60 * Second; l_shouldLog := true |}).
Proof.
  split; [split; [reflexivity|]|split].
  - apply (failure_doubles_then_clamps (New "sync")
             {| l_backoff := 30 * Second; l_shouldLog := false |}
             (failing "timeout" TimerFired) "timeout" eq_refl eq_refl).
    reflexivity.
  - apply (failure_doubles_then_clamps (New "sync")
             (locals_after (New "sync") (entry (New "sync"))
                [failing "timeout" TimerFired])
             (failing "timeout" TimerFired) "timeout" eq_refl eq_refl).
    + vm_compute. discriminate.
    + reflexivity.
    + reflexivity.
  - apply (failure_doubles_then_clamps (New "sync")
             (locals_after (New "sync") (entry (New "sync"))
                [failing "timeout" TimerFired; failing "timeout" TimerFired])
             (failing "timeout" TimerFired) "timeout" eq_refl eq_refl).
    + reflexivity.
    + reflexivity.
    + reflexivity.
Defined.

(** C5: in an iteration where [b.f] returns [(false, nil)], the delay is
    set back to [initialBackoff] whatever it was before: that is the delay
    waited for, and the delay the next iteration starts from. *)
Theorem success_resets_backoff (b : backoff) (l : locals) (t : turn) :
  f_done t = false ->
  f_err t = None ->
  l_backoff (grow b l (f_err t)) = initialBackoff b /\
  waits (fst (step b l t)) = [initialBackoff b] /\
  (forall l', snd (step b l t) = Some l' -> l_backoff l' = initialBackoff b).
Proof.
  intros Hd He. rewrite (waits_step b l t Hd). unfold step. rewrite Hd, He.
  cbn [grow l_backoff snd]. repeat split.
  intros l'. destruct (sel t); [|discriminate]. now intros [= <-].
Qed.

Lemma success_resets_backoff_witness :
  let b := New "sync" in
  let l := {| l_backoff := 60 * Second; l_shouldLog := true |} in
  waits (fst (step b l (idle TimerFired))) = [10 * Second] /\
  snd (step b l (idle TimerFired)) = Some {| l_backoff := 10 * Second; l_shouldLog := false |}.
Proof.
  split.
  - apply (success_resets_backoff (New "sync")
             {| l_backoff := 60 * Second; l_shouldLog := true |}
             (idle TimerFired) eq_refl eq_refl).
  - reflexivity.
Defined.

(** ** The first iteration *)

(** C3, as amended: when the first call of [b.f] returns [(false, err)],
    the first iteration logs exactly one notification if [err] is [nil]
    (the info message), or if [err] is not [nil] and the doubled
    [initialBackoff] does not exceed [maxBackoff] (the warning, with the
    doubled delay).  When the doubled [initialBackoff] exceeds [maxBackoff]
    the first failure is clamped like any other and logs nothing.  The
    first iteration is [step] at [entry], and its events open the trace of
    [Start]. *)
Theorem first_iteration_notes (b : backoff) (t : turn) (rest : list turn) :
  f_done t = false ->
  (exists later, fst (Start b (t :: rest)) = fst (step b (entry b) t) ++ later) /\
  (f_err t = None -> notes (fst (step b (entry b) t)) = [Infof (msg b)]) /\
  (forall e, f_err t = Some e ->
     Int64.mul (initialBackoff b) 2 <= maxBackoff b ->
     notes (fst (step b (entry b) t)) =
       [Warnf (msg b) (Int64.mul (initialBackoff b) 2) e]) /\
  (forall e, f_err t = Some e ->
     Int64.mul (initialBackoff b) 2 > maxBackoff b ->
     notes (fst (step b (entry b) t)) = []).
Proof.
  intros Hd. split.
  { destruct (Start_unfolds_at b [] t rest eq_refl) as [later H].
    exists later. exact H. }
  rewrite (notes_step b _ t Hd). repeat split.
  - intros ->. reflexivity.
  - intros e -> Hle. cbn [grow entry l_backoff].
    destruct (Z.gtb_spec (Int64.mul (initialBackoff b) 2) (maxBackoff b)); [lia|].
    reflexivity.
  - intros e -> Hgt. cbn [grow entry l_backoff].
    destruct (Z.gtb_spec (Int64.mul (initialBackoff b) 2) (maxBackoff b)); [|lia].
    reflexivity.
Qed.

Lemma first_iteration_notes_witness :
  notes (fst (step (New "sync") (entry (New "sync")) (failing "timeout" TimerFired)))
    = [Warnf "sync" (20 * Second) "timeout"] /\
  notes (fst (step (New "sync") (entry (New "sync")) (idle TimerFired)))
    = [Infof "sync"].
Proof.
  split.
  - apply (first_iteration_notes (New "sync") (failing "timeout" TimerFired) []
             eq_refl) with (e := "timeout").
    + reflexivity.
    + vm_compute. discriminate.
  - apply (first_iteration_notes (New "sync") (idle TimerFired) [] eq_refl).
    reflexivity.
Defined.

(** C3 as stated fails when the first doubling already exceeds
    [maxBackoff]: with [initialBackoff = 40s] and [maxBackoff = 60s] a
    failure in the first iteration is clamped, and nothing is logged. *)
Lemma first_failure_can_be_silent :
  let b := SetMaxBackoff (SetInitialBackoff (New "sync") (40 * Second)) (60 * Second) in
  initialBackoff b <= maxBackoff b /\
  Start b [failing "timeout" TimerFired]
    = ([Call false (Some "timeout"); After (60 * Second) TimerFired],
       Pending {| l_backoff := 60 * Second; l_shouldLog := true |}) /\
  length (notes (fst (Start b [failing "timeout" TimerFired]))) <> 1%nat.
Proof.
  cbv zeta. split; [vm_compute; discriminate|]. split; [reflexivity|].
  vm_compute. discriminate.
Qed.

(** ** Suppression at the maximum *)

(** The locals once a failure has been clamped: the delay is [maxBackoff]
    and [shouldLog] has been set again for the iteration to come. *)
Lemma next_clamped (b : backoff) (l : locals) (e : error) :
  Int64.mul (l_backoff l) 2 > maxBackoff b ->
  grow b l (Some e) = {| l_backoff := maxBackoff b; l_shouldLog := false |} /\
  next b l (Some e) = {| l_backoff := maxBackoff b; l_shouldLog := true |}.
Proof.
  intros Hgt. unfold next. cbn [grow].
  destruct (Z.gtb_spec (Int64.mul (l_backoff l) 2) (maxBackoff b)); [|lia].
  split; reflexivity.
Qed.

Lemma double_max_exceeds (b : backoff) :
  0 < maxBackoff b -> 2 * maxBackoff b <= Int64.max_int ->
  Int64.mul (maxBackoff b) 2 > maxBackoff b.
Proof.
  intros Hpos Hfit. rewrite mul_2_fits; [lia|].
  unfold Int64.in_range, Int64.min_int, Int64.max_int in *. lia.
Qed.

(** A run of failures from a delay that the first of them clamps: nothing
    is logged, every wait is for [maxBackoff], and the locals stay put. *)
Lemma clamped_run_silent (b : backoff) (fs : list turn) :
  0 < maxBackoff b -> 2 * maxBackoff b <= Int64.max_int ->
  forallb fails fs = true ->
  forallb continues fs = true ->
  forall l,
    Int64.mul (l_backoff l) 2 > maxBackoff b ->
    notes (fst (loop b l fs)) = [] /\
    waits (fst (loop b l fs)) = repeat (maxBackoff b) (length fs) /\
    (fs <> [] ->
     locals_after b l fs = {| l_backoff := maxBackoff b; l_shouldLog := true |}).
Proof.
  intros Hpos Hfit. induction fs as [|c fs IH]; intros Hf Hc l Hgt.
  - cbn. repeat split. congruence.
  - cbn in Hf, Hc.
    apply andb_true_iff in Hf as [Hf1 Hf], Hc as [Hc1 Hc].
    destruct (fails_inv c Hf1) as [Hd [e He]].
    destruct (next_clamped b l e Hgt) as [Hg Hn].
    assert (Hgt' : Int64.mul (l_backoff (next b l (f_err c))) 2 > maxBackoff b).
    { rewrite He, Hn. cbn [l_backoff]. now apply double_max_exceeds. }
    destruct (IH Hf Hc _ Hgt') as (IHn & IHw & IHl).
    rewrite (loop_cons_not_done b l c fs Hd).
    unfold continues in Hc1. rewrite Hd in Hc1. cbn in Hc1.
    destruct (sel c); [|discriminate].
    change (notes (Call false (f_err c) :: ?x)) with (notes x).
    cbn [waits length repeat].
    rewrite notes_app, waits_app, notes_report, waits_report.
    change (notes (After ?d ?w :: ?x)) with (notes x).
    cbn [app waits]. rewrite IHn, IHw, app_nil_r.
    repeat split.
    + rewrite He, Hg. reflexivity.
    + now rewrite He, Hn.
    + intros _. cbn [locals_after fold_left].
      fold (locals_after b (next b l (f_err c)) fs).
      destruct fs as [|c' fs']; [now rewrite He, Hn|].
      apply IHl. discriminate.
Qed.

(** C2, as amended: for [0 < maxBackoff] with [2 * maxBackoff] in
    [int64], once a failure [c] has been clamped at [maxBackoff], neither
    it nor any of the consecutive failures [fs] after it logs anything, and
    each of them waits for [maxBackoff].  The first iteration after them
    that is not a failure logs exactly one notification, the info message,
    when [b.f] returned [(false, nil)], and nothing when [b.f] reported
    completion.  Here [pre] is whatever happened before [c], and [t] is the
    iteration after the run. *)
Theorem saturated_failures_are_silent
    (b : backoff) (pre : list turn) (c : turn) (fs : list turn) (t : turn) :
  0 < maxBackoff b ->
  2 * maxBackoff b <= Int64.max_int ->
  forallb continues pre = true ->
  Int64.mul (l_backoff (locals_after b (entry b) pre)) 2 > maxBackoff b ->
  forallb fails (c :: fs) = true ->
  forallb continues (c :: fs) = true ->
  f_done t = true \/ f_err t = None ->
  notes (fst (Start b (pre ++ (c :: fs) ++ [t]))) =
    notes (fst (Start b pre)) ++ (if f_done t then [] else [Infof (msg b)]) /\
  waits (fst (Start b (pre ++ (c :: fs) ++ [t]))) =
    waits (fst (Start b pre)) ++ repeat (maxBackoff b) (length (c :: fs))
      ++ (if f_done t then [] else [initialBackoff b]).
Proof.
  intros Hpos Hfit Hpre Hgt Hf Hc Ht.
  rewrite !notes_Start, !waits_Start.
  rewrite (loop_continues b pre _ Hpre). cbn [fst].
  set (l := locals_after b (entry b) pre) in *.
  rewrite (loop_continues b (c :: fs) [t] Hc). cbn [fst].
  destruct (clamped_run_silent b (c :: fs) Hpos Hfit Hf Hc l Hgt) as (Hn & Hw & Hl).
  rewrite !notes_app, !waits_app, Hn, Hw, Hl by discriminate.
  cbn [app]. split.
  - f_equal. destruct (f_done t) eqn:Hd.
    + cbn [loop]. now rewrite (step_done b _ t Hd).
    + destruct Ht as [Ht|Ht]; [discriminate|].
      rewrite (loop_cons_not_done b _ t [] Hd), Ht.
      cbn. destruct (sel t); reflexivity.
  - do 2 f_equal. destruct (f_done t) eqn:Hd.
    + cbn [loop]. now rewrite (step_done b _ t Hd).
    + destruct Ht as [Ht|Ht]; [discriminate|].
      rewrite (loop_cons_not_done b _ t [] Hd), Ht.
      cbn. destruct (sel t); reflexivity.
Qed.

Lemma saturated_failures_are_silent_witness :
  let b := New "sync" in
  let F := failing "timeout" TimerFired in
  notes (fst (Start b ([F; F] ++ [F; F; F] ++ [idle TimerFired]))) =
    notes (fst (Start b [F; F])) ++ [Infof "sync"] /\
  waits (fst (Start b ([F; F] ++ [F; F; F] ++ [idle TimerFired]))) =
    waits (fst (Start b [F; F])) ++ repeat (60 * Second) 3 ++ [10 * Second].
Proof.
  apply (saturated_failures_are_silent (New "sync")
           [failing "timeout" TimerFired; failing "timeout" TimerFired]
           (failing "timeout" TimerFired)
           [failing "timeout" TimerFired; failing "timeout" TimerFired]
           (idle TimerFired)).
  - reflexivity.
  - vm_compute. discriminate.
  - reflexivity.
  - reflexivity.
  - reflexivity.
  - reflexivity.
  - right. reflexivity.
Defined.

(** C2 as stated fails on completion: with [initialBackoff = 1] and
    [maxBackoff = 4], the third failure is clamped, and when [b.f] then
    reports completion the loop returns without logging.  The whole run
    logs the two warnings of the first two failures and nothing else. *)
Lemma completion_after_saturation_is_silent :
  let b := {| msg := "sync"; initialBackoff := 1; maxBackoff := 4 |} in
  let F := failing "timeout" TimerFired in
  let l := locals_after b (entry b) [F; F; F] in
  l = {| l_backoff := maxBackoff b; l_shouldLog := true |} /\
  Int64.mul (l_backoff (locals_after b (entry b) [F; F])) 2 > maxBackoff b /\
  step b l (finished None) = ([Call true None], None) /\
  length (notes (fst (step b l (finished None)))) <> 1%nat /\
  notes (fst (Start b [F; F; F; finished None])) =
    [Warnf "sync" 2 "timeout"; Warnf "sync" 4 "timeout"].
Proof.
  cbv zeta. repeat split; try reflexivity. vm_compute. discriminate.
Qed.

(** ** Completion and cancellation *)

(** C8: when the first call of [b.f] reports completion, [Start] returns
    right after that one call: no notification, no wait, only the deferred
    [close(b.done)].  More generally an iteration in which [b.f] reports
    completion consists of the call alone, whatever the locals are, and
    ends the run wherever it occurs. *)
Theorem completion_returns_at_once (b : backoff) (t : turn) (rest : list turn) :
  f_done t = true ->
  Start b (t :: rest) = ([Call true (f_err t); CloseDone], Exited) /\
  (forall l, step b l t = ([Call true (f_err t)], None)) /\
  (forall pre,
     forallb continues pre = true ->
     Start b (pre ++ t :: rest) =
       (fst (Start b pre) ++ [Call true (f_err t); CloseDone], Exited)).
Proof.
  intros Hd.
  assert (Hstep : forall l, step b l t = ([Call true (f_err t)], None))
    by (intros l; now apply step_done).
  assert (Hpre : forall pre,
             forallb continues pre = true ->
             Start b (pre ++ t :: rest) =
               (fst (Start b pre) ++ [Call true (f_err t); CloseDone], Exited)).
  { intros pre Hpre. rewrite fst_Start, (loop_pending b pre Hpre), app_nil_r.
    unfold Start. rewrite (loop_continues b pre (t :: rest) Hpre).
    cbn [loop]. rewrite Hstep. cbn [fst snd]. now rewrite <- app_assoc. }
  split; [|split; assumption].
  apply (Hpre [] eq_refl).
Qed.

Lemma completion_returns_at_once_witness :
  Start (New "sync") (finished None :: [failing "timeout" TimerFired])
    = ([Call true None; CloseDone], Exited).
Proof.
  apply (completion_returns_at_once (New "sync") (finished None)
           [failing "timeout" TimerFired] eq_refl).
Defined.

(** C9: when the [select] of an iteration takes the [<-b.quit] case, the
    loop returns there: the trace ends with that wait followed by the
    deferred [close(b.done)] and nothing else, so no notification follows;
    [b.f] has been called once per iteration so far and is not called for
    any turn that might have followed; and [done] is closed by the last
    event only, so a pending [Stop] is unblocked after the loop has
    returned and not before. *)
Theorem quit_during_wait_exits (b : backoff) (pre : list turn) (t : turn) (rest : list turn) :
  forallb continues pre = true ->
  f_done t = false ->
  sel t = QuitClosed ->
  exists body d,
    Start b (pre ++ t :: rest) = (body ++ [After d QuitClosed; CloseDone], Exited) /\
    Start b (pre ++ t :: rest) = Start b (pre ++ [t]) /\
    calls (fst (Start b (pre ++ t :: rest))) = S (length pre) /\
    Stop_unblocked (body ++ [After d QuitClosed]) = false /\
    Stop_unblocked (fst (Start b (pre ++ t :: rest))) = true.
Proof.
  intros Hpre Hd Hq.
  set (l := locals_after b (entry b) pre).
  exists (fst (loop b (entry b) pre)
            ++ Call false (f_err t) :: report b (grow b l (f_err t)) (f_err t)),
    (l_backoff (next b l (f_err t))).
  assert (Hrun : forall rest',
            Start b (pre ++ t :: rest') =
              ((fst (loop b (entry b) pre)
                  ++ Call false (f_err t) :: report b (grow b l (f_err t)) (f_err t))
                 ++ [After (l_backoff (next b l (f_err t))) QuitClosed; CloseDone],
               Exited)).
  { intros rest'. unfold Start.
    rewrite (loop_continues b pre (t :: rest') Hpre). fold l.
    cbn [loop]. rewrite (step_quit b l t Hd Hq). cbn [fst snd].
    f_equal. rewrite <- !app_assoc. cbn [app]. now rewrite <- app_assoc. }
  destruct (loop_round_counts b pre Hpre (entry b)) as (Hcalls & _ & Hopen).
  rewrite !Hrun. cbn [fst]. repeat split.
  - rewrite !calls_app. cbn [calls]. rewrite calls_report, Hcalls. cbn. lia.
  - unfold Stop_unblocked. rewrite !existsb_app. cbn [existsb is_CloseDone].
    now rewrite Hopen, CloseDone_report.
  - unfold Stop_unblocked. rewrite !existsb_app. cbn. now rewrite !orb_true_r.
Qed.

Lemma quit_during_wait_exits_witness :
  exists body d,
    Start (New "sync")
      ([failing "timeout" TimerFired] ++ idle QuitClosed :: [failing "timeout" TimerFired])
      = (body ++ [After d QuitClosed; CloseDone], Exited) /\
    Start (New "sync")
      ([failing "timeout" TimerFired] ++ idle QuitClosed :: [failing "timeout" TimerFired])
      = Start (New "sync") ([failing "timeout" TimerFired] ++ [idle QuitClosed]) /\
    calls (fst (Start (New "sync")
                  ([failing "timeout" TimerFired] ++ idle QuitClosed
                     :: [failing "timeout" TimerFired]))) = 2%nat /\
    Stop_unblocked (body ++ [After d QuitClosed]) = false /\
    Stop_unblocked (fst (Start (New "sync")
                           ([failing "timeout" TimerFired] ++ idle QuitClosed
                              :: [failing "timeout" TimerFired]))) = true.
Proof.
  apply (quit_during_wait_exits (New "sync") [failing "timeout" TimerFired]
           (idle QuitClosed) [failing "timeout" TimerFired] eq_refl eq_refl eq_refl).
Defined.

(** ** A zero initial delay *)

Lemma next_zero (b : backoff) (l : locals) (err : option error) :
  initialBackoff b = 0 -> 0 <= maxBackoff b ->
  l_backoff l = 0 ->
  l_backoff (grow b l err) = 0 /\
  (forall e, err = Some e -> l_shouldLog (grow b l err) = true).
Proof.
  intros Hi Hm Hl. destruct err as [e|]; cbn [grow].
  - rewrite Hl. change (Int64.mul 0 2) with 0.
    destruct (Z.gtb_spec 0 (maxBackoff b)); [lia|]. split; [reflexivity|auto].
  - split; [assumption|discriminate].
Qed.

Lemma locals_after_zero (b : backoff) (pre : list turn) :
  initialBackoff b = 0 -> 0 <= maxBackoff b ->
  forall l, l_backoff l = 0 -> l_backoff (locals_after b l pre) = 0.
Proof.
  intros Hi Hm. induction pre as [|t pre IH]; intros l Hl; [assumption|].
  cbn [locals_after fold_left]. fold (locals_after b (next b l (f_err t)) pre).
  apply IH. rewrite next_backoff. now apply next_zero.
Qed.

Lemma loop_waits_zero (b : backoff) (ts : list turn) :
  initialBackoff b = 0 -> 0 <= maxBackoff b ->
  forall l, l_backoff l = 0 -> Forall (fun d => d = 0) (waits (fst (loop b l ts))).
Proof.
  intros Hi Hm. induction ts as [|t ts IH]; intros l Hl; [constructor|].
  destruct (f_done t) eqn:Hd.
  - cbn [loop]. rewrite (step_done b l t Hd). cbn. constructor.
  - rewrite (loop_cons_not_done b l t ts Hd). cbn [waits].
    rewrite waits_app, waits_report. cbn [app waits].
    assert (Hn : l_backoff (next b l (f_err t)) = 0)
      by (rewrite next_backoff; now apply next_zero).
    constructor; [assumption|].
    destruct (sel t); [now apply IH|constructor].
Qed.

(** A failing call on a zero initial delay, in its own pass through the
    body. *)
Lemma zero_initial_in_one_pass (b : backoff) (pre : list turn) (t : turn) (e : error) :
  initialBackoff b = 0 ->
  0 <= maxBackoff b ->
  forallb continues pre = true ->
  f_done t = false ->
  f_err t = Some e ->
  l_backoff (locals_after b (entry b) pre) = 0 /\
  notes (fst (step b (locals_after b (entry b) pre) t)) = [Warnf (msg b) 0 e] /\
  waits (fst (step b (locals_after b (entry b) pre) t)) = [0] /\
  (forall ts, Forall (fun d => d = 0) (waits (fst (Start b ts)))).
Proof.
  intros Hi Hm Hpre Hd He.
  assert (Hl : l_backoff (locals_after b (entry b) pre) = 0)
    by (apply locals_after_zero; assumption).
  destruct (next_zero b _ (f_err t) Hi Hm Hl) as [Hg Hs].
  rewrite (notes_step b _ t Hd), (waits_step b _ t Hd), Hg.
  repeat split; [assumption| |].
  - unfold report. rewrite (Hs e He), Hg, He. reflexivity.
  - intros ts. rewrite waits_Start. now apply loop_waits_zero.
Qed.

Lemma filter_Warnf_report (b : backoff) (l : locals) (err : option error) :
  filter is_Warnf (report b l err) =
    match err with
    | Some e => if l_shouldLog l then [Warnf (msg b) (l_backoff l) e] else []
    | None => []
    end.
Proof. unfold report. destruct (l_shouldLog l), err; reflexivity. Qed.

Lemma filter_Warnf_Start (b : backoff) (ts : list turn) :
  filter is_Warnf (fst (Start b ts)) = filter is_Warnf (fst (loop b (entry b) ts)).
Proof.
  rewrite fst_Start, filter_app.
  destruct (snd (loop b (entry b) ts)); cbn; now rewrite app_nil_r.
Qed.

Lemma loop_warnings_zero (b : backoff) (ts : list turn) :
  initialBackoff b = 0 -> 0 <= maxBackoff b ->
  forall l, l_backoff l = 0 ->
    filter is_Warnf (fst (loop b l ts)) =
      flat_map (fun t => match f_err t with
                         | Some e => [Warnf (msg b) 0 e]
                         | None => []
                         end) (served ts).
Proof.
  intros Hi Hm. induction ts as [|t ts IH]; intros l Hl; [reflexivity|].
  cbn [served]. destruct (f_done t) eqn:Hd.
  - cbn [loop]. now rewrite (step_done b l t Hd).
  - rewrite (loop_cons_not_done b l t ts Hd).
    destruct (next_zero b l (f_err t) Hi Hm Hl) as [Hg Hs].
    cbn [filter is_Warnf flat_map]. rewrite filter_app, filter_Warnf_report, Hg.
    cbn [filter is_Warnf]. f_equal.
    + destruct (f_err t) as [e|]; [|reflexivity]. now rewrite (Hs e eq_refl).
    + destruct (sel t); [|reflexivity].
      apply IH. now rewrite next_backoff.
Qed.

(** C10: with [initialBackoff = 0] and [maxBackoff >= 0] failures are
    never suppressed: the delay is [0] and stays [0] whatever [b.f]
    answers, doubling it gives [0], which does not exceed [maxBackoff], so
    every iteration in which [b.f] fails logs the warning (with delay
    [0]), however many failures came before, and every wait is for [0].
    The iteration stands in the trace of [Start] as the call, the warning
    and the wait for [0], and leaves [Start] with the delay [0]; and over
    any run at all, the warnings [Start] logs are one for each iteration
    that failed, in order, each with the delay [0]. *)
Theorem zero_initial_never_suppresses (b : backoff) (pre : list turn) (t : turn) (e : error) :
  initialBackoff b = 0 ->
  0 <= maxBackoff b ->
  forallb continues pre = true ->
  f_done t = false ->
  f_err t = Some e ->
  l_backoff (locals_after b (entry b) pre) = 0 /\
  notes (fst (step b (locals_after b (entry b) pre) t)) = [Warnf (msg b) 0 e] /\
  waits (fst (step b (locals_after b (entry b) pre) t)) = [0] /\
  (forall ts, Forall (fun d => d = 0) (waits (fst (Start b ts)))) /\
  (forall rest, exists later,
     fst (Start b (pre ++ t :: rest)) =
       fst (Start b pre)
         ++ [Call false (Some e); Warnf (msg b) 0 e; After 0 (sel t)] ++ later) /\
  Start b (pre ++ [t]) =
    (fst (Start b pre)
       ++ [Call false (Some e); Warnf (msg b) 0 e; After 0 (sel t)] ++ closing (sel t),
     carries_on (sel t) {| l_backoff := 0; l_shouldLog := true |}) /\
  (forall ts,
     filter is_Warnf (fst (Start b ts)) =
       flat_map (fun t' => match f_err t' with
                           | Some e' => [Warnf (msg b) 0 e']
                           | None => []
                           end) (served ts)).
Proof.
  intros Hi Hm Hpre Hd He.
  destruct (zero_initial_in_one_pass b pre t e Hi Hm Hpre Hd He) as (Hl & Hn & Hw & Hall).
  do 4 (split; [assumption|]).
  destruct (next_zero b _ (f_err t) Hi Hm Hl) as [Hg Hs].
  assert (Hgrow : grow b (locals_after b (entry b) pre) (f_err t) =
                  {| l_backoff := 0; l_shouldLog := true |}).
  { specialize (Hs e He).
    destruct (grow b (locals_after b (entry b) pre) (f_err t)) as [d s].
    cbn in Hg, Hs. now subst. }
  split; [|split].
  - intros rest. destruct (Start_iteration b pre t rest Hpre Hd) as [later H].
    exists later. rewrite H, Hgrow, He. reflexivity.
  - rewrite (Start_snoc b pre t Hpre Hd). unfold next. rewrite Hgrow, He. reflexivity.
  - intros ts. rewrite filter_Warnf_Start.
    now apply loop_warnings_zero.
Qed.

Lemma zero_initial_never_suppresses_witness :
  let b := SetInitialBackoff (New "sync") 0 in
  let F := failing "timeout" TimerFired in
  notes (fst (step b (locals_after b (entry b) [F; F; F; idle TimerFired; F]) F))
    = [Warnf "sync" 0 "timeout"] /\
  filter is_Warnf (fst (Start b [F; F; F; idle TimerFired; F; finished None; F]))
    = [Warnf "sync" 0 "timeout"; Warnf "sync" 0 "timeout"; Warnf "sync" 0 "timeout";
       Warnf "sync" 0 "timeout"].
Proof.
  split.
  - apply (zero_initial_never_suppresses (SetInitialBackoff (New "sync") 0)
             [failing "timeout" TimerFired; failing "timeout" TimerFired;
              failing "timeout" TimerFired; idle TimerFired;
              failing "timeout" TimerFired]
             (failing "timeout" TimerFired) "timeout").
    + reflexivity.
    + vm_compute. discriminate.
    + reflexivity.
    + reflexivity.
    + reflexivity.
  - apply (zero_initial_never_suppresses (SetInitialBackoff (New "sync") 0)
             [] (failing "timeout" TimerFired) "timeout").
    + reflexivity.
    + vm_compute. discriminate.
    + reflexivity.
    + reflexivity.
    + reflexivity.
Defined.

(** ** The scenario with delays 2, 4, 4 *)

(** C7: with [initialBackoff] one unit [u] and [maxBackoff] four units,
    when [b.f] fails in its first three calls and reports completion in the
    fourth, the waits are for [2u], [4u] and [4u] (the last one clamped and
    not logged), and the fourth call is followed by no wait: [Start]
    returns.  The unit is any positive duration whose eightfold fits in an
    [int64]. *)
Theorem scenario_two_four_four
    (u : Duration) (m : string) (e1 e2 e3 : error) (err4 : option error) :
  0 < u ->
  8 * u <= Int64.max_int ->
  Start {| msg := m; initialBackoff := u; maxBackoff := 4 * u |}
    [failing e1 TimerFired; failing e2 TimerFired; failing e3 TimerFired; finished err4]
  = ([Call false (Some e1); Warnf m (2 * u) e1; After (2 * u) TimerFired;
      Call false (Some e2); Warnf m (4 * u) e2; After (4 * u) TimerFired;
      Call false (Some e3); After (4 * u) TimerFired;
      Call true err4; CloseDone],
     Exited) /\
  waits (fst (Start {| msg := m; initialBackoff := u; maxBackoff := 4 * u |}
                [failing e1 TimerFired; failing e2 TimerFired;
                 failing e3 TimerFired; finished err4]))
  = [2 * u; 4 * u; 4 * u].
Proof.
  intros Hpos Hfit.
  assert (H1 : Int64.mul u 2 = 2 * u).
  { apply mul_2_fits. unfold Int64.in_range, Int64.min_int, Int64.max_int in *. lia. }
  assert (H2 : Int64.mul (2 * u) 2 = 4 * u).
  { rewrite mul_2_fits; [lia|].
    unfold Int64.in_range, Int64.min_int, Int64.max_int in *. lia. }
  assert (H3 : Int64.mul (4 * u) 2 = 8 * u).
  { rewrite mul_2_fits; [lia|].
    unfold Int64.in_range, Int64.min_int, Int64.max_int in *. lia. }
  assert (Hrun :
    Start {| msg := m; initialBackoff := u; maxBackoff := 4 * u |}
      [failing e1 TimerFired; failing e2 TimerFired; failing e3 TimerFired; finished err4]
    = ([Call false (Some e1); Warnf m (2 * u) e1; After (2 * u) TimerFired;
        Call false (Some e2); Warnf m (4 * u) e2; After (4 * u) TimerFired;
        Call false (Some e3); After (4 * u) TimerFired;
        Call true err4; CloseDone],
       Exited)).
  { unfold Start, loop, step, failing, finished, entry, grow, rearm, report.
    cbn [f_done f_err sel l_backoff l_shouldLog msg initialBackoff maxBackoff].
    rewrite H1.
    destruct (Z.gtb_spec (2 * u) (4 * u)) as [Hgt|_]; [lia|].
    cbn [l_backoff l_shouldLog]. rewrite H2.
    destruct (Z.gtb_spec (4 * u) (4 * u)) as [Hgt|_]; [lia|].
    cbn [l_backoff l_shouldLog]. rewrite H3.
    destruct (Z.gtb_spec (8 * u) (4 * u)) as [_|Hle]; [|lia].
    reflexivity. }
  split; [exact Hrun|]. rewrite Hrun. reflexivity.
Qed.

Lemma scenario_two_four_four_witness :
  Start {| msg := "sync"; initialBackoff := Second; maxBackoff := 4 * Second |}
    [failing "a" TimerFired; failing "b" TimerFired; failing "c" TimerFired;
     finished None]
  = ([Call false (Some "a"); Warnf "sync" (2 * Second) "a"; After (2 * Second) TimerFired;
      Call false (Some "b"); Warnf "sync" (4 * Second) "b"; After (4 * Second) TimerFired;
      Call false (Some "c"); After (4 * Second) TimerFired;
      Call true None; CloseDone],
     Exited).
Proof.
  apply (scenario_two_four_four Second "sync" "a" "b" "c" None).
  - reflexivity.
  - vm_compute. discriminate.
Defined.

(** * Further properties of the loop *)

(** ** An upper bound that needs no precondition *)

Lemma grow_below_max (b : backoff) (l : locals) (err : option error) :
  l_backoff (grow b l err) <= Z.max (initialBackoff b) (maxBackoff b).
Proof.
  destruct err as [e|]; cbn [grow]; [|cbn; lia].
  destruct (Z.gtb_spec (Int64.mul (l_backoff l) 2) (maxBackoff b)); cbn; lia.
Qed.

Lemma loop_below_max (b : backoff) (ts : list turn) :
  forall l,
    Forall (fun d => d <= Z.max (initialBackoff b) (maxBackoff b))
      (delays (fst (loop b l ts))).
Proof.
  induction ts as [|t ts IH]; intros l; [constructor|].
  destruct (f_done t) eqn:Hd.
  - cbn [loop]. rewrite (step_done b l t Hd). cbn. constructor.
  - rewrite (loop_cons_not_done b l t ts Hd). cbn [delays].
    rewrite delays_app. cbn [delays]. apply Forall_app. split.
    + apply delays_report. apply grow_below_max.
    + constructor; [rewrite next_backoff; apply grow_below_max|].
      destruct (sel t); [apply IH|constructor].
Qed.

(** X1: whatever the configuration and whatever [b.f] answers, no delay
    that [Start] logs or waits for is above the larger of [initialBackoff]
    and [maxBackoff]; this holds also where the doubling wraps around.
    When [initialBackoff <= maxBackoff] the bound is [maxBackoff]. *)
Theorem delays_never_exceed_max (b : backoff) (ts : list turn) :
  Forall (fun d => d <= Z.max (initialBackoff b) (maxBackoff b))
    (delays (fst (Start b ts))) /\
  (initialBackoff b <= maxBackoff b ->
   Forall (fun d => d <= maxBackoff b) (delays (fst (Start b ts)))).
Proof.
  rewrite delays_Start. split; [apply loop_below_max|].
  intros Hle. pose proof (loop_below_max b ts (entry b)) as H.
  rewrite Z.max_r in H by assumption. exact H.
Qed.

Lemma delays_never_exceed_max_witness :
  Forall (fun d => d <= Int64.max_int)
    (delays (fst (Start {| msg := "sync"; initialBackoff := 2 ^ 62;
                           maxBackoff := Int64.max_int |}
                    [failing "timeout" TimerFired; failing "timeout" TimerFired;
                     idle TimerFired; failing "timeout" TimerFired]))).
Proof.
  apply (delays_never_exceed_max
           {| msg := "sync"; initialBackoff := 2 ^ 62; maxBackoff := Int64.max_int |}).
  vm_compute. discriminate.
Defined.

(** ** When the info message is logged *)

Lemma next_shouldLog (b : backoff) (l : locals) (err : option error) :
  l_shouldLog (next b l err) = match err with Some _ => true | None => false end.
Proof. reflexivity. Qed.

(** X2: in a run of [Start], an iteration in which [b.f] returns
    [(false, nil)] logs the info message exactly when it is the first
    iteration or the iteration before it failed (whether that failure was
    logged or suppressed), and logs nothing when the iteration before it
    had no error either; in both cases it waits for [initialBackoff].  No
    condition on the configuration is needed.  Here [p] is the iteration
    before [t], [pre] whatever came before [p], and [rest] whatever the
    environment offers after [t]. *)
Theorem success_logged_first_and_after_failure
    (b : backoff) (pre : list turn) (p t : turn) (rest : list turn) :
  forallb continues (pre ++ [p]) = true ->
  f_done t = false ->
  f_err t = None ->
  (exists later,
     fst (Start b (t :: rest)) =
       [Call false None; Infof (msg b); After (initialBackoff b) (sel t)] ++ later) /\
  (exists later,
     fst (Start b ((pre ++ [p]) ++ t :: rest)) =
       fst (Start b (pre ++ [p]))
         ++ Call false None
         :: match f_err p with
            | Some _ => [Infof (msg b)]
            | None => []
            end
         ++ After (initialBackoff b) (sel t) :: later).
Proof.
  intros Hpre Hd He. split.
  - destruct (Start_iteration b [] t rest eq_refl Hd) as [later H].
    exists later. cbn [app] in H. rewrite H, He. reflexivity.
  - destruct (Start_iteration b (pre ++ [p]) t rest Hpre Hd) as [later H].
    exists later. rewrite H, He. cbn [grow l_backoff]. unfold report.
    cbn [l_shouldLog]. rewrite locals_after_snoc, next_shouldLog.
    now destruct (f_err p).
Qed.

Lemma success_logged_first_and_after_failure_witness :
  let b := New "sync" in
  let F := failing "timeout" TimerFired in
  (exists later,
     fst (Start b (([F; F; F] ++ [F]) ++ idle TimerFired :: [idle TimerFired])) =
       fst (Start b ([F; F; F] ++ [F]))
         ++ Call false None :: [Infof "sync"] ++ After (10 * Second) TimerFired :: later) /\
  (exists later,
     fst (Start b (([F; F; F] ++ [idle TimerFired]) ++ idle TimerFired :: [])) =
       fst (Start b ([F; F; F] ++ [idle TimerFired]))
         ++ Call false None :: [] ++ After (10 * Second) TimerFired :: later).
Proof.
  split.
  - apply (success_logged_first_and_after_failure (New "sync")
             [failing "timeout" TimerFired; failing "timeout" TimerFired;
              failing "timeout" TimerFired]
             (failing "timeout" TimerFired) (idle TimerFired) [idle TimerFired]
             eq_refl eq_refl eq_refl).
  - apply (success_logged_first_and_after_failure (New "sync")
             [failing "timeout" TimerFired; failing "timeout" TimerFired;
              failing "timeout" TimerFired]
             (idle TimerFired) (idle TimerFired) [] eq_refl eq_refl eq_refl).
Defined.

(** ** Which failures are logged *)

(** The [N]-th consecutive failure from the start, in its own pass through
    the body. *)
Lemma nth_failure_in_one_pass
    (b : backoff) (pre : list turn) (t : turn) (e : error) :
  doubling_safe b ->
  forallb fails pre = true ->
  forallb continues pre = true ->
  f_done t = false ->
  f_err t = Some e ->
  notes (fst (step b (locals_after b (entry b) pre) t)) =
    if initialBackoff b * 2 ^ Z.of_nat (S (length pre)) <=? maxBackoff b
    then [Warnf (msg b) (initialBackoff b * 2 ^ Z.of_nat (S (length pre))) e]
    else [].
Proof.
  intros Hsafe Hf _ Hd He.
  rewrite (notes_step b _ t Hd), He.
  assert (Hl : l_backoff (locals_after b (entry b) pre) =
               Z.min (initialBackoff b * 2 ^ Z.of_nat (length pre)) (maxBackoff b)).
  { rewrite (locals_after_failures b pre Hsafe Hf (entry b) 0%nat); [reflexivity|].
    cbn. destruct Hsafe as [Hle _]. lia. }
  set (l := locals_after b (entry b) pre) in *.
  replace (initialBackoff b * 2 ^ Z.of_nat (S (length pre)))
    with (2 * (initialBackoff b * 2 ^ Z.of_nat (length pre)))
    by (rewrite Nat2Z.inj_succ, Z.pow_succ_r; lia).
  pose proof (Z.pow_pos_nonneg 2 (Z.of_nat (length pre)) ltac:(lia) ltac:(lia)) as Hpow.
  set (x := initialBackoff b * 2 ^ Z.of_nat (length pre)) in *.
  destruct Hsafe as [Hle Hs].
  assert (Hx : 0 <= x /\ initialBackoff b <= x /\ (initialBackoff b = 0 -> x = 0)).
  { subst x. repeat split; [nia|nia|]. intros ->. lia. }
  destruct Hx as (Hx0 & Hxi & Hxz).
  assert (Hfit : Int64.in_range (2 * l_backoff l)).
  { unfold Int64.in_range, Int64.min_int, Int64.max_int in *.
    destruct Hs as [H0|Hm]; lia. }
  unfold report. cbn [grow]. rewrite (mul_2_fits _ Hfit).
  destruct (Z.gtb_spec (2 * l_backoff l) (maxBackoff b)) as [Hgt|Hngt];
    destruct (Z.leb_spec (2 * x) (maxBackoff b)) as [Hxle|Hxgt];
    cbn [l_shouldLog l_backoff]; try reflexivity; try lia.
  do 2 f_equal. lia.
Qed.

(** X3: on a configuration with [0 <= initialBackoff <= maxBackoff] where
    doubling cannot overflow, the [N]-th of [N] consecutive failures from
    the start of a run of [Start] is logged exactly when
    [initialBackoff * 2^N <= maxBackoff], and the warning then carries the
    delay [initialBackoff * 2^N]; from the first failure whose doubled
    delay exceeds [maxBackoff] on, failures are not logged.  Either way the
    wait that follows is for [min (initialBackoff * 2^N) maxBackoff].  Here
    [N = S (length pre)], and [rest] is whatever the environment offers
    after the [N]-th failure. *)
Theorem nth_failure_logged_iff_below_max
    (b : backoff) (pre : list turn) (t : turn) (e : error) (rest : list turn) :
  doubling_safe b ->
  forallb fails pre = true ->
  forallb continues pre = true ->
  f_done t = false ->
  f_err t = Some e ->
  exists later,
    fst (Start b (pre ++ t :: rest)) =
      fst (Start b pre)
        ++ Call false (Some e)
        :: (if initialBackoff b * 2 ^ Z.of_nat (S (length pre)) <=? maxBackoff b
            then [Warnf (msg b) (initialBackoff b * 2 ^ Z.of_nat (S (length pre))) e]
            else [])
        ++ After (Z.min (initialBackoff b * 2 ^ Z.of_nat (S (length pre))) (maxBackoff b))
             (sel t)
        :: later.
Proof.
  intros Hsafe Hf Hc Hd He.
  destruct (Start_iteration b pre t rest Hc Hd) as [later H].
  exists later. rewrite H.
  rewrite <- (notes_step b _ t Hd).
  rewrite (nth_failure_in_one_pass b pre t e Hsafe Hf Hc Hd He).
  rewrite <- next_backoff, <- locals_after_snoc.
  assert (Hall : forallb fails (pre ++ [t]) = true).
  { rewrite forallb_app, Hf. unfold fails. cbn. now rewrite Hd, He. }
  rewrite (locals_after_failures b (pre ++ [t]) Hsafe Hall (entry b) 0%nat).
  - rewrite length_app, He. cbn [length Nat.add].
    replace (length pre + 1)%nat with (S (length pre)) by lia. reflexivity.
  - cbn. destruct Hsafe as [Hle _]. lia.
Qed.

Lemma nth_failure_logged_iff_below_max_witness :
  let b := New "sync" in
  let F := failing "timeout" TimerFired in
  (exists later,
     fst (Start b ([F] ++ F :: [F])) =
       fst (Start b [F])
         ++ Call false (Some "timeout") :: [Warnf "sync" (40 * Second) "timeout"]
         ++ After (40 * Second) TimerFired :: later) /\
  (exists later,
     fst (Start b ([F; F] ++ F :: [])) =
       fst (Start b [F; F])
         ++ Call false (Some "timeout") :: []
         ++ After (60 * Second) TimerFired :: later).
Proof.
  split.
  - apply (nth_failure_logged_iff_below_max (New "sync")
             [failing "timeout" TimerFired] (failing "timeout" TimerFired) "timeout"
             [failing "timeout" TimerFired]).
    + unfold doubling_safe. vm_compute. repeat split; try discriminate.
      right. discriminate.
    + reflexivity.
    + reflexivity.
    + reflexivity.
    + reflexivity.
  - apply (nth_failure_logged_iff_below_max (New "sync")
             [failing "timeout" TimerFired; failing "timeout" TimerFired]
             (failing "timeout" TimerFired) "timeout" []).
    + unfold doubling_safe. vm_compute. repeat split; try discriminate.
      right. discriminate.
    + reflexivity.
    + reflexivity.
    + reflexivity.
    + reflexivity.
Defined.

(** ** The defaults of [New] *)

(** X4: with the defaults of [New] (10s and 60s), a controller whose work
    fails every time from the start logs the first two failures, with the
    delays 20s and 40s, and none after them; it waits 20s, 40s, and then
    60s after every further failure. *)
Theorem New_logs_two_failures (m : string) (e1 e2 : error) (fs : list turn) :
  forallb fails fs = true ->
  forallb continues fs = true ->
  notes (fst (Start (New m)
                (failing e1 TimerFired :: failing e2 TimerFired :: fs))) =
    [Warnf m (20 * Second) e1; Warnf m (40 * Second) e2] /\
  waits (fst (Start (New m)
                (failing e1 TimerFired :: failing e2 TimerFired :: fs))) =
    20 * Second :: 40 * Second :: repeat (60 * Second) (length fs).
Proof.
  intros Hf Hc. rewrite notes_Start, waits_Start.
  rewrite (loop_continues (New m)
             [failing e1 TimerFired; failing e2 TimerFired] fs eq_refl).
  cbn [fst]. rewrite notes_app, waits_app.
  set (l := locals_after (New m) (entry (New m))
              [failing e1 TimerFired; failing e2 TimerFired]).
  assert (Hgt : Int64.mul (l_backoff l) 2 > maxBackoff (New m)) by reflexivity.
  destruct (clamped_run_silent (New m) fs eq_refl
              ltac:(vm_compute; discriminate) Hf Hc l Hgt) as (Hn & Hw & _).
  rewrite Hn, Hw. split; reflexivity.
Qed.

Lemma New_logs_two_failures_witness :
  notes (fst (Start (New "sync")
                (failing "a" TimerFired :: failing "b" TimerFired
                   :: [failing "c" TimerFired; failing "d" TimerFired]))) =
    [Warnf "sync" (20 * Second) "a"; Warnf "sync" (40 * Second) "b"].
Proof.
  apply (New_logs_two_failures "sync" "a" "b"
           [failing "c" TimerFired; failing "d" TimerFired]).
  - reflexivity.
  - reflexivity.
Defined.

(** ** Calls, waits and notifications, counted *)

Lemma calls_Start (b : backoff) (ts : list turn) :
  calls (fst (Start b ts)) = calls (fst (loop b (entry b) ts)).
Proof.
  rewrite fst_Start, calls_app.
  destruct (snd (loop b (entry b) ts)); cbn; lia.
Qed.

Lemma snd_Start (b : backoff) (ts : list turn) :
  snd (Start b ts) = snd (loop b (entry b) ts).
Proof. unfold Start. now destruct (loop b (entry b) ts) as [evs [|l]]. Qed.

Lemma length_report (b : backoff) (l : locals) (err : option error) :
  (length (report b l err) <= 1)%nat.
Proof. unfold report. destruct (l_shouldLog l), err; cbn; lia. Qed.

Lemma loop_counts (b : backoff) (ts : list turn) :
  forall l,
    (length (notes (fst (loop b l ts))) <= length (waits (fst (loop b l ts))))%nat /\
    (length (waits (fst (loop b l ts))) <= calls (fst (loop b l ts)))%nat /\
    (calls (fst (loop b l ts)) <= S (length (waits (fst (loop b l ts)))))%nat /\
    (calls (fst (loop b l ts)) <= length ts)%nat /\
    (ts <> [] -> (1 <= calls (fst (loop b l ts)))%nat) /\
    (forall l', snd (loop b l ts) = Pending l' ->
                calls (fst (loop b l ts)) = length ts /\
                length (waits (fst (loop b l ts))) = length ts).
Proof.
  induction ts as [|t ts IH]; intros l.
  - cbn. do 4 (split; [lia|]). split; [congruence|]. intros l' _. split; reflexivity.
  - rewrite snd_loop_cons. destruct (f_done t) eqn:Hd.
    + cbn [loop]. rewrite (step_done b l t Hd). cbn.
      do 4 (split; [lia|]). split; [lia|discriminate].
    + rewrite (loop_cons_not_done b l t ts Hd).
      change (notes (Call false (f_err t) :: ?x)) with (notes x).
      cbn [waits calls length].
      rewrite notes_app, waits_app, calls_app, notes_report, waits_report,
        calls_report, length_app.
      change (notes (After ?d ?w :: ?x)) with (notes x).
      cbn [app waits calls length].
      pose proof (length_report b (grow b l (f_err t)) (f_err t)) as Hr.
      destruct (sel t).
      * destruct (IH (next b l (f_err t))) as (H1 & H2 & H3 & H4 & _ & H6).
        do 4 (split; [lia|]). split; [lia|].
        intros l' Hl'. destruct (H6 l' Hl'). lia.
      * cbn. do 4 (split; [lia|]). split; [lia|discriminate].
Qed.

(** X5: in any run of [Start], every wait is preceded by its own call of
    [b.f] and every notification belongs to an iteration that goes on to
    wait: there are at most as many notifications as waits, and the calls
    are as many as the waits or one more (the call that reported
    completion).  [b.f] is called at most once per turn and, when there is
    a turn at all, at least once: cancellation is not looked at before the
    first call.  While the loop is still going it has called [b.f] and
    waited exactly once per turn. *)
Theorem one_call_per_wait (b : backoff) (ts : list turn) :
  (length (notes (fst (Start b ts))) <= length (waits (fst (Start b ts))))%nat /\
  (length (waits (fst (Start b ts))) <= calls (fst (Start b ts)))%nat /\
  (calls (fst (Start b ts)) <= S (length (waits (fst (Start b ts)))))%nat /\
  (calls (fst (Start b ts)) <= length ts)%nat /\
  (ts <> [] -> (1 <= calls (fst (Start b ts)))%nat) /\
  (forall l, snd (Start b ts) = Pending l ->
             calls (fst (Start b ts)) = length ts /\
             length (waits (fst (Start b ts))) = length ts).
Proof.
  rewrite notes_Start, waits_Start, calls_Start, snd_Start.
  apply loop_counts.
Qed.

(** ** The shape of a trace *)

Lemma well_formed_iteration
    (b : backoff) (l : locals) (err : option error) (w : wake) (rest : list event) :
  well_formed (msg b)
    (Call false err :: report b (grow b l err) err
       ++ After (l_backoff (next b l err)) w :: rest) =
    match w with
    | TimerFired => well_formed (msg b) rest
    | QuitClosed => ends_here rest
    end.
Proof.
  rewrite next_backoff. unfold report.
  destruct (l_shouldLog (grow b l err)), err as [e|]; cbn [app well_formed];
    rewrite ?String.eqb_refl, ?Z.eqb_refl; reflexivity.
Qed.

Lemma loop_well_formed (b : backoff) (ts : list turn) :
  forall l,
    well_formed (msg b)
      (fst (loop b l ts)
         ++ match snd (loop b l ts) with
            | Exited => [CloseDone]
            | Pending _ => []
            end) = true.
Proof.
  induction ts as [|t ts IH]; intros l; [reflexivity|].
  rewrite snd_loop_cons. destruct (f_done t) eqn:Hd.
  - cbn [loop]. rewrite (step_done b l t Hd). reflexivity.
  - rewrite (loop_cons_not_done b l t ts Hd).
    rewrite <- app_comm_cons, <- app_assoc, <- app_comm_cons.
    rewrite well_formed_iteration.
    destruct (sel t); [apply IH|reflexivity].
Qed.

(** X6: every trace of [Start] is made of whole iterations.  An iteration
    is a call of [b.f], then at most one notification, then the wait; a
    warning carries [b.msg], the error that very call returned and the
    delay that is waited for next, and the info message is logged only
    after a call that returned no error.  After a call that reports
    completion, and after a wait cut short by [quit], the only thing that
    follows is [close(b.done)]. *)
Theorem Start_trace_well_formed (b : backoff) (ts : list turn) :
  well_formed (msg b) (fst (Start b ts)) = true.
Proof. rewrite fst_Start. apply loop_well_formed. Qed.

(** ** After the loop has returned *)

Lemma loop_exited_app (b : backoff) (ts rest : list turn) :
  forall l, snd (loop b l ts) = Exited -> loop b l (ts ++ rest) = loop b l ts.
Proof.
  induction ts as [|t ts IH]; intros l Hex; [discriminate|].
  cbn [app loop] in *. destruct (step b l t) as [evs [l'|]]; [|reflexivity].
  destruct (loop b l' ts) as [evs' en] eqn:Hl. cbn [snd] in Hex. subst en.
  rewrite (IH l'); rewrite Hl; reflexivity.
Qed.

(** X7: once [Start] has returned, by completion or by cancellation,
    nothing that the environment might still offer changes what it did:
    [b.f] is not called again, nothing more is logged or waited for. *)
Theorem Start_returns_for_good (b : backoff) (ts rest : list turn) :
  snd (Start b ts) = Exited ->
  Start b (ts ++ rest) = Start b ts.
Proof.
  rewrite snd_Start. intros Hex. unfold Start.
  now rewrite (loop_exited_app b ts rest (entry b) Hex).
Qed.

Lemma Start_returns_for_good_witness :
  Start (New "sync")
    ([failing "timeout" TimerFired; finished None] ++ [idle TimerFired; idle TimerFired])
  = Start (New "sync") [failing "timeout" TimerFired; finished None].
Proof.
  apply (Start_returns_for_good (New "sync")
           [failing "timeout" TimerFired; finished None]
           [idle TimerFired; idle TimerFired] eq_refl).
Defined.

(** ** An initial delay at or above the maximum *)

Lemma grow_at_or_above_max (b : backoff) (l : locals) (err : option error) :
  0 < maxBackoff b <= initialBackoff b ->
  2 * initialBackoff b <= Int64.max_int ->
  l_backoff l = initialBackoff b \/ l_backoff l = maxBackoff b ->
  filter is_Warnf (report b (grow b l err) err) = [] /\
  l_backoff (grow b l err) =
    match err with
    | Some _ => maxBackoff b
    | None => initialBackoff b
    end.
Proof.
  intros Hm Hfit Hl. destruct err as [e|]; cbn [grow].
  - assert (Hr : Int64.in_range (2 * l_backoff l)).
    { unfold Int64.in_range, Int64.min_int, Int64.max_int in *. lia. }
    rewrite (mul_2_fits _ Hr).
    destruct (Z.gtb_spec (2 * l_backoff l) (maxBackoff b)); [|lia].
    split; reflexivity.
  - split; [|reflexivity].
    unfold report. cbn. now destruct (l_shouldLog l).
Qed.

Lemma loop_no_warning (b : backoff) (ts : list turn) :
  0 < maxBackoff b <= initialBackoff b ->
  2 * initialBackoff b <= Int64.max_int ->
  forall l,
    l_backoff l = initialBackoff b \/ l_backoff l = maxBackoff b ->
    filter is_Warnf (fst (loop b l ts)) = [] /\
    waits (fst (loop b l ts)) =
      map (fun t => match f_err t with
                    | Some _ => maxBackoff b
                    | None => initialBackoff b
                    end) (served ts).
Proof.
  intros Hm Hfit. induction ts as [|t ts IH]; intros l Hl.
  - split; reflexivity.
  - cbn [served]. destruct (f_done t) eqn:Hd.
    + cbn [loop]. rewrite (step_done b l t Hd). split; reflexivity.
    + destruct (grow_at_or_above_max b l (f_err t) Hm Hfit Hl) as [Hq Hg].
      rewrite (loop_cons_not_done b l t ts Hd).
      cbn [filter is_Warnf waits map].
      rewrite filter_app, waits_app, waits_report, Hq.
      cbn [app filter is_Warnf waits]. rewrite next_backoff, Hg.
      destruct (sel t).
      * assert (Hn : l_backoff (next b l (f_err t)) = initialBackoff b \/
                     l_backoff (next b l (f_err t)) = maxBackoff b).
        { rewrite next_backoff, Hg. destruct (f_err t); auto. }
        destruct (IH (next b l (f_err t)) Hn) as [IHq IHw].
        split; [assumption|now rewrite IHw].
      * split; reflexivity.
Qed.

(** X9: when [SetInitialBackoff] puts the initial delay [d] at or above a
    positive [maxBackoff] (and its double fits in an [int64]), no failure
    is ever logged: the first doubling already exceeds [maxBackoff], so
    every failure is clamped and suppressed.  The waits of a run are then,
    iteration by iteration, [d] after a call without error and the smaller
    [maxBackoff] after a failure. *)
Theorem initial_above_max_silences_warnings
    (b : backoff) (d : Duration) (ts : list turn) :
  0 < maxBackoff b <= d ->
  2 * d <= Int64.max_int ->
  filter is_Warnf (fst (Start (SetInitialBackoff b d) ts)) = [] /\
  waits (fst (Start (SetInitialBackoff b d) ts)) =
    map (fun t => match f_err t with
                  | Some _ => maxBackoff b
                  | None => d
                  end) (served ts).
Proof.
  intros Hm Hfit.
  destruct (loop_no_warning (SetInitialBackoff b d) ts Hm Hfit
              (entry (SetInitialBackoff b d)) (or_introl eq_refl)) as [Hq Hw].
  rewrite waits_Start, filter_Warnf_Start. split; assumption.
Qed.

Lemma initial_above_max_silences_warnings_witness :
  let b := SetInitialBackoff (New "sync") (120 * Second) in
  let ts := [failing "a" TimerFired; idle TimerFired; failing "b" TimerFired;
             failing "c" QuitClosed; idle TimerFired] in
  filter is_Warnf (fst (Start b ts)) = [] /\
  waits (fst (Start b ts)) = [60 * Second; 120 * Second; 60 * Second; 60 * Second].
Proof.
  apply (initial_above_max_silences_warnings (New "sync") (120 * Second)).
  - vm_compute. split; [reflexivity|discriminate].
  - vm_compute. discriminate.
Defined.

(** ** A maximum of zero *)

Lemma locals_after_zero_max (b : backoff) (pre : list turn) :
  0 < initialBackoff b -> 2 * initialBackoff b <= Int64.max_int ->
  maxBackoff b = 0 ->
  forall l,
    l_backoff l = initialBackoff b \/ l_backoff l = 0 ->
    l_backoff (locals_after b l pre) = initialBackoff b \/
    l_backoff (locals_after b l pre) = 0.
Proof.
  intros Hi Hfit Hm. induction pre as [|t pre IH]; intros l Hl; [assumption|].
  cbn [locals_after fold_left]. fold (locals_after b (next b l (f_err t)) pre).
  apply IH. rewrite next_backoff. destruct (f_err t) as [e|]; cbn [grow].
  - right. rewrite Hm.
    destruct (Z.gtb_spec (Int64.mul (l_backoff l) 2) 0) as [Hgt|Hle]; [reflexivity|].
    cbn [l_backoff]. destruct Hl as [Hl|Hl]; rewrite Hl in *; [|reflexivity].
    rewrite mul_2_fits in Hle; [lia|].
    unfold Int64.in_range, Int64.min_int, Int64.max_int in *. lia.
  - left. reflexivity.
Qed.

(** A failing call under a maximum of zero, in its own pass through the
    body. *)
Lemma zero_max_in_one_pass
    (b : backoff) (pre : list turn) (p t : turn) (e : error) :
  0 < initialBackoff b ->
  2 * initialBackoff b <= Int64.max_int ->
  forallb continues (pre ++ [p]) = true ->
  f_done t = false ->
  f_err t = Some e ->
  step (SetMaxBackoff b 0) (entry (SetMaxBackoff b 0)) t =
    ([Call false (Some e); After 0 (sel t)],
     match sel t with
     | TimerFired => Some {| l_backoff := 0; l_shouldLog := true |}
     | QuitClosed => None
     end) /\
  waits (fst (step (SetMaxBackoff b 0)
                (locals_after (SetMaxBackoff b 0) (entry (SetMaxBackoff b 0)) (pre ++ [p]))
                t)) = [0] /\
  notes (fst (step (SetMaxBackoff b 0)
                (locals_after (SetMaxBackoff b 0) (entry (SetMaxBackoff b 0)) (pre ++ [p]))
                t)) =
    match f_err p with
    | Some _ => [Warnf (msg b) 0 e]
    | None => []
    end.
Proof.
  intros Hi Hfit _ Hd He.
  set (b0 := SetMaxBackoff b 0).
  assert (Hr : Int64.in_range (2 * initialBackoff b)).
  { unfold Int64.in_range, Int64.min_int, Int64.max_int in *. lia. }
  assert (Hfirst : (Int64.mul (initialBackoff b) 2 >? 0) = true).
  { rewrite (mul_2_fits _ Hr). apply Z.gtb_lt. lia. }
  split.
  { unfold step. rewrite Hd, He. unfold report, rearm.
    cbn [grow entry b0 SetMaxBackoff l_backoff l_shouldLog initialBackoff maxBackoff].
    rewrite Hfirst. reflexivity. }
  rewrite (waits_step b0 _ t Hd), (notes_step b0 _ t Hd), He.
  rewrite locals_after_snoc.
  pose proof (locals_after_zero_max b0 pre Hi Hfit eq_refl (entry b0)
                (or_introl eq_refl)) as Hpre.
  set (l := locals_after b0 (entry b0) pre) in *.
  unfold next, rearm, report.
  destruct (f_err p) as [ep|]; cbn [grow l_backoff l_shouldLog b0 SetMaxBackoff
                                      initialBackoff maxBackoff msg].
  - assert (Hz : l_backoff (if Int64.mul (l_backoff l) 2 >? 0
                            then {| l_backoff := 0; l_shouldLog := false |}
                            else {| l_backoff := Int64.mul (l_backoff l) 2;
                                    l_shouldLog := true |}) = 0).
    { destruct (Z.gtb_spec (Int64.mul (l_backoff l) 2) 0) as [Hgt|Hle]; [reflexivity|].
      cbn [l_backoff]. destruct Hpre as [Hl|Hl]; cbn in Hl; rewrite Hl in *;
        [|reflexivity].
      rewrite (mul_2_fits _ Hr) in Hle. lia. }
    rewrite Hz. change (Int64.mul 0 2 >? 0) with false. cbn. split; reflexivity.
  - rewrite Hfirst. cbn. split; reflexivity.
Qed.

(** X10: when [SetMaxBackoff] puts the maximum at [0] under a positive
    initial delay (whose double fits in an [int64]), a failed call in a run
    of [Start] is always retried at once, with a wait of [0].  A failure
    that comes first or right after a call without error is clamped and
    logs nothing; a failure right after another failure doubles [0] to
    [0], which is not above the maximum, and is logged with the delay [0].
    Here [p] is the iteration before [t], [pre] whatever came before [p],
    and [rest] whatever the environment offers after [t]. *)
Theorem zero_max_retries_at_once
    (b : backoff) (pre : list turn) (p t : turn) (e : error) (rest : list turn) :
  0 < initialBackoff b ->
  2 * initialBackoff b <= Int64.max_int ->
  forallb continues (pre ++ [p]) = true ->
  f_done t = false ->
  f_err t = Some e ->
  (exists later,
     fst (Start (SetMaxBackoff b 0) (t :: rest)) =
       [Call false (Some e); After 0 (sel t)] ++ later) /\
  (exists later,
     fst (Start (SetMaxBackoff b 0) ((pre ++ [p]) ++ t :: rest)) =
       fst (Start (SetMaxBackoff b 0) (pre ++ [p]))
         ++ Call false (Some e)
         :: match f_err p with
            | Some _ => [Warnf (msg b) 0 e]
            | None => []
            end
         ++ After 0 (sel t) :: later).
Proof.
  intros Hi Hfit Hpre Hd He.
  destruct (zero_max_in_one_pass b pre p t e Hi Hfit Hpre Hd He) as (Hfirst & Hw & Hn).
  split.
  - destruct (Start_unfolds_at (SetMaxBackoff b 0) [] t rest eq_refl) as [later H].
    exists later. cbn [app locals_after fold_left] in H. now rewrite H, Hfirst.
  - destruct (Start_iteration (SetMaxBackoff b 0) (pre ++ [p]) t rest Hpre Hd)
      as [later H].
    exists later. rewrite H.
    rewrite (waits_step _ _ t Hd) in Hw. injection Hw as Hw.
    rewrite (notes_step _ _ t Hd) in Hn.
    now rewrite Hw, Hn, He.
Qed.

Lemma zero_max_retries_at_once_witness :
  let b := SetMaxBackoff (New "sync") 0 in
  (exists later,
     fst (Start b (([] ++ [failing "a" TimerFired]) ++ failing "b" TimerFired :: [])) =
       fst (Start b ([] ++ [failing "a" TimerFired]))
         ++ Call false (Some "b") :: [Warnf "sync" 0 "b"]
         ++ After 0 TimerFired :: later) /\
  (exists later,
     fst (Start b (([] ++ [idle TimerFired]) ++ failing "b" TimerFired :: [])) =
       fst (Start b ([] ++ [idle TimerFired]))
         ++ Call false (Some "b") :: [] ++ After 0 TimerFired :: later).
Proof.
  split.
  - apply (zero_max_retries_at_once (New "sync") [] (failing "a" TimerFired)
             (failing "b" TimerFired) "b" []); try reflexivity.
    vm_compute. discriminate.
  - apply (zero_max_retries_at_once (New "sync") [] (idle TimerFired)
             (failing "b" TimerFired) "b" []); try reflexivity.
    vm_compute. discriminate.
Defined.
